(** * RandomX1: a bit-caching wrapper around the Arduino random source

    Shallow embedding of [src/RandomX1.h] and the properties of its
    public interface ([randomSeed], [randomBits], [random]).

    Conventions of the embedding
    - C++ integers are values of [Z]; every conversion the C++ code
      performs (to [uint8_t], [uint32_t], [long]) is written out as a
      reduction modulo a power of two.  [long] is 32 bits wide, as the
      class assumes ([BITS_PER_NATIVE_RANDOM = 31]).  Signed overflow is
      undefined in C++; the model wraps in two's complement, and the
      theorems whose statement depends on the absence of overflow say so
      in a hypothesis.
    - The class members live in the record [RandomX1]; the process-wide
      Arduino generator ([::random], [::randomSeed]) is a collaborator
      described by the class [NativeSource].
    - Member functions are state transformers on [world], the generator
      object together with the native source and a ghost counter of the
      calls made to [::random]. *)

From Stdlib Require Import ZArith List Lia Bool.
Import ListNotations.
Local Open Scope Z_scope.

(** ** Machine integers *)

Module CInt.

Definition LONG_MAX : Z := 2147483647.
Definition LONG_MIN : Z := -2147483648.

Definition to_uint8 (z : Z) : Z := z mod 2 ^ 8.
Definition to_uint32 (z : Z) : Z := z mod 2 ^ 32.
Definition to_long (z : Z) : Z := (z + 2 ^ 31) mod 2 ^ 32 - 2 ^ 31.

Definition is_uint8 (z : Z) : Prop := 0 <= z <= 255.
Definition is_uint32 (z : Z) : Prop := 0 <= z < 2 ^ 32.
Definition is_long (z : Z) : Prop := LONG_MIN <= z <= LONG_MAX.

End CInt.
Import CInt.

(** ** The native random source

    [native_random howbig] is [::random(howbig)], [native_randomSeed] is
    [::randomSeed].  The only fact the class relies on is the Arduino
    contract that [::random(howbig)] lies in [0, howbig) for a positive
    bound. *)

Class NativeSource (S : Type) : Type := {
  native_random : Z -> S -> Z * S;
  native_randomSeed : Z -> S -> S;
  native_random_range :
    forall howbig s, 0 < howbig -> 0 <= fst (native_random howbig s) < howbig
}.

(** ** Class constants and tables *)

Definition MAX_BITS_PER_RANDOM_REQUEST : Z := 20.

(** [static const uint8_t MAX_VALUE_PER_RANDOM_REQUEST =
       ((1 << MAX_BITS_PER_RANDOM_REQUEST) - 1);]
    the initialiser is converted to the declared type [uint8_t], which
    keeps its low eight bits. *)
Definition MAX_VALUE_PER_RANDOM_REQUEST : Z :=
  to_uint8 (Z.shiftl 1 MAX_BITS_PER_RANDOM_REQUEST - 1).

Definition BITS_PER_NATIVE_RANDOM : Z := 31.

(** The value the class documentation announces for the range limit. *)
Definition documented_max_value : Z := 2 ^ MAX_BITS_PER_RANDOM_REQUEST - 1.

Definition REQUIRED_BITS : list Z :=
  [ 0; 1; 2; 2; 3; 3; 3; 3;
    4; 4; 4; 4; 4; 4; 4; 4;
    5; 5; 5; 5; 5; 5; 5; 5;
    5; 5; 5; 5; 5; 5; 5; 5;
    6; 6; 6; 6; 6; 6; 6; 6;
    6; 6; 6; 6; 6; 6; 6; 6;
    6; 6; 6; 6; 6; 6; 6; 6;
    6; 6; 6; 6; 6; 6; 6; 6;
    7; 7; 7; 7; 7; 7; 7; 7;
    7; 7; 7; 7; 7; 7; 7; 7;
    7; 7; 7; 7; 7; 7; 7; 7;
    7; 7; 7; 7; 7; 7; 7; 7;
    7; 7; 7; 7; 7; 7; 7; 7;
    7; 7; 7; 7; 7; 7; 7; 7;
    7; 7; 7; 7; 7; 7; 7; 7;
    7; 7; 7; 7; 7; 7; 7; 7;
    8; 8; 8; 8; 8; 8; 8; 8;
    8; 8; 8; 8; 8; 8; 8; 8;
    8; 8; 8; 8; 8; 8; 8; 8;
    8; 8; 8; 8; 8; 8; 8; 8;
    8; 8; 8; 8; 8; 8; 8; 8;
    8; 8; 8; 8; 8; 8; 8; 8;
    8; 8; 8; 8; 8; 8; 8; 8;
    8; 8; 8; 8; 8; 8; 8; 8;
    8; 8; 8; 8; 8; 8; 8; 8;
    8; 8; 8; 8; 8; 8; 8; 8;
    8; 8; 8; 8; 8; 8; 8; 8;
    8; 8; 8; 8; 8; 8; 8; 8;
    8; 8; 8; 8; 8; 8; 8; 8;
    8; 8; 8; 8; 8; 8; 8; 8;
    8; 8; 8; 8; 8; 8; 8; 8;
    8; 8; 8; 8; 8; 8; 8; 8 ].

Definition MASKS : list Z :=
  [ 0x00000000; 0x00000001; 0x00000003; 0x00000007;
    0x0000000f; 0x0000001f; 0x0000003f; 0x0000007f;
    0x000000ff; 0x000001ff; 0x000003ff; 0x000007ff;
    0x00000fff; 0x00001fff; 0x00003fff; 0x00007fff;
    0x0000ffff; 0x0001ffff; 0x0003ffff; 0x0007ffff;
    0x000fffff; 0x001fffff; 0x003fffff; 0x007fffff;
    0x00ffffff; 0x01ffffff; 0x03ffffff; 0x07ffffff;
    0x0fffffff; 0x1fffffff; 0x3fffffff; 0x7fffffff ].

(** Table lookup [t[i]].  An index outside the table is undefined in
    C++; the model reads 0 there. *)
Definition index (t : list Z) (i : Z) : Z :=
  if i <? 0 then 0 else nth (Z.to_nat i) t 0.

(** ** Pure helpers *)

(** [_get_mask(bit_count)] *)
Definition _get_mask (bit_count : Z) : Z := index MASKS bit_count.

(** [_get_required_bits(num)]: [temp] is a [uint32_t], [num] a [long],
    the result a [uint8_t]. *)
Definition _get_required_bits (num : Z) : Z :=
  let temp := to_uint32 (Z.shiftr num 8) in
  if temp =? 0 then to_uint8 (index REQUIRED_BITS num)
  else
    let num := to_long (Z.shiftr temp 8) in
    if num =? 0 then to_uint8 (8 + index REQUIRED_BITS temp)
    else
      let temp := to_uint32 (Z.shiftr num 8) in
      if temp =? 0 then to_uint8 (16 + index REQUIRED_BITS num)
      else to_uint8 (24 + index REQUIRED_BITS temp).

(** The width the specification asks [_get_required_bits] to compute:
    the number of binary digits of [n], that is [ceil (log2 (n + 1))]. *)
Definition bit_width (n : Z) : Z := Z.log2_up (n + 1).

(** ** Generator state *)

(** A two-element array, indexed by [m_ctrlIndex] (which only ever takes
    the values 0 and 1). *)
Record array2 : Type := Array2 { elt0 : Z; elt1 : Z }.

Definition aget (a : array2) (i : Z) : Z :=
  if i =? 0 then elt0 a else elt1 a.

Definition aset (a : array2) (i : Z) (v : Z) : array2 :=
  if i =? 0 then Array2 v (elt1 a) else Array2 (elt0 a) v.

Record RandomX1 : Type := MkRandomX1 {
  m_bits : array2;       (* uint32_t m_bits[2]     *)
  m_bitCounts : array2;  (* uint8_t m_bitCounts[2] *)
  m_ctrlIndex : Z        (* uint8_t m_ctrlIndex    *)
}.

Section Generator.

Context {S : Type} {src : NativeSource S}.

(** The generator object, the native source it draws from, and a ghost
    counter of the calls made to [::random]. *)
Record world : Type := World {
  self : RandomX1;
  source : S;
  native_calls : nat
}.

Definition with_self (w : world) (r : RandomX1) : world :=
  World r (source w) (native_calls w).

Definition cur_bits (w : world) : Z :=
  aget (m_bits (self w)) (m_ctrlIndex (self w)).

Definition cur_count (w : world) : Z :=
  aget (m_bitCounts (self w)) (m_ctrlIndex (self w)).

(** [m_bits[m_ctrlIndex] = v] *)
Definition set_cur_bits (v : Z) (w : world) : world :=
  let r := self w in
  with_self w
    (MkRandomX1 (aset (m_bits r) (m_ctrlIndex r) v) (m_bitCounts r)
                (m_ctrlIndex r)).

(** [m_bitCounts[m_ctrlIndex] = v] *)
Definition set_cur_count (v : Z) (w : world) : world :=
  let r := self w in
  with_self w
    (MkRandomX1 (m_bits r) (aset (m_bitCounts r) (m_ctrlIndex r) v)
                (m_ctrlIndex r)).

(** [m_ctrlIndex ^= 0x01] *)
Definition toggle_index (w : world) : world :=
  let r := self w in
  with_self w
    (MkRandomX1 (m_bits r) (m_bitCounts r)
                (to_uint8 (Z.lxor (m_ctrlIndex r) 1))).

(** [::random(howbig)] *)
Definition call_native_random (howbig : Z) (w : world) : Z * world :=
  let (v, s') := native_random howbig (source w) in
  (v, World (self w) s' (Datatypes.S (native_calls w))).

(** [::randomSeed(seed)] *)
Definition call_native_randomSeed (seed : Z) (w : world) : world :=
  World (self w) (native_randomSeed seed (source w)) (native_calls w).

(** *** Private member functions *)

(** [_get_bits(bit_count)] *)
Definition _get_bits (bit_count : Z) (w : world) : Z * world :=
  let '(ret, bit_count, w) :=
    if cur_count w <? bit_count then
      let bit_count := to_uint8 (bit_count - cur_count w) in
      let ret := to_long (to_uint32 (Z.shiftl (cur_bits w) bit_count)) in
      let (fresh, w) := call_native_random LONG_MAX w in
      let w := set_cur_bits (to_uint32 fresh) w in
      let w := set_cur_count BITS_PER_NATIVE_RANDOM w in
      (ret, bit_count, w)
    else (0, bit_count, w) in
  let ret :=
    to_long (Z.lor (to_uint32 ret)
                   (Z.land (cur_bits w) (to_uint32 (_get_mask bit_count)))) in
  let w := set_cur_count (to_uint8 (cur_count w - bit_count)) w in
  let w := set_cur_bits (Z.shiftr (cur_bits w) bit_count) w in
  (ret, w).

(** [_peek_bits(bit_count, num, res)]: the reference parameter [res]
    is passed in and returned next to the boolean. *)
Definition _peek_bits (bit_count num res : Z) (w : world)
  : (bool * Z) * world :=
  if bit_count <=? cur_count w then
    if Z.land (cur_bits w) (to_uint32 (_get_mask bit_count))
       <? to_uint32 num
    then
      let (res, w) := _get_bits bit_count w in
      ((true, res), w)
    else ((false, res), w)
  else ((false, res), w).

(** *** Public member functions *)

(** The constructor [RandomX1(seed)]. *)
Definition construct (seed : Z) (s : S) : world :=
  let w :=
    World (MkRandomX1 (Array2 0 0)
                      (Array2 BITS_PER_NATIVE_RANDOM BITS_PER_NATIVE_RANDOM)
                      0)
          s 0%nat in
  let (b0, w) := call_native_random LONG_MAX w in
  let w :=
    with_self w (MkRandomX1 (aset (m_bits (self w)) 0 (to_uint32 b0))
                            (m_bitCounts (self w)) (m_ctrlIndex (self w))) in
  let (b1, w) := call_native_random LONG_MAX w in
  let w :=
    with_self w (MkRandomX1 (aset (m_bits (self w)) 1 (to_uint32 b1))
                            (m_bitCounts (self w)) (m_ctrlIndex (self w))) in
  call_native_randomSeed seed w.

(** [randomSeed(seed)] *)
Definition randomSeed (seed : Z) (w : world) : world :=
  call_native_randomSeed seed w.

(** [randomBits(bit_count, offset)] *)
Definition randomBits (bit_count offset : Z) (w : world) : Z * world :=
  if bit_count =? 0 then (0, w)
  else
    let bit_count :=
      if MAX_BITS_PER_RANDOM_REQUEST <? bit_count
      then MAX_BITS_PER_RANDOM_REQUEST else bit_count in
    let w := toggle_index w in
    let (bits, w) := _get_bits bit_count w in
    (to_long (bits + offset), w).

(** The body of [random(min_val, max_val)], with the range limit it
    reads from [MAX_VALUE_PER_RANDOM_REQUEST] as the parameter
    [max_value]. *)
Definition random_capped (max_value : Z) (min_val max_val : Z) (w : world)
  : Z * world :=
  let diff := to_long (max_val - min_val - 1) in
  if diff <=? 0 then (0, w)
  else
    let diff := if max_value <? diff then max_value else diff in
    let req_bits := _get_required_bits diff in
    let (res, w) := randomBits req_bits 0 w in
    let (res, w) :=
      if diff <=? res then
        let (res, w) := randomBits req_bits 0 w in
        if diff <=? res then
          let '((ok, res), w) := _peek_bits req_bits diff res w in
          if negb ok then
            if diff <=? res then
              let w := toggle_index w in
              let '((ok, res), w) := _peek_bits req_bits diff res w in
              if negb ok then call_native_random diff w
              else (res, w)
            else (res, w)
          else (res, w)
        else (res, w)
      else (res, w) in
    (to_long (res + min_val), w).

(** [random(min_val, max_val)] *)
Definition random (min_val max_val : Z) (w : world) : Z * world :=
  random_capped MAX_VALUE_PER_RANDOM_REQUEST min_val max_val w.

(** [random(max_val)] *)
Definition random1 (max_val : Z) (w : world) : Z * world :=
  random 0 max_val w.

(** *** Well-formed states and reachability *)

(** Buffer [i] holds [m_bitCounts[i]] unconsumed bits, at most a full
    native word, and nothing above them. *)
Definition buffer_ok (w : world) (i : Z) : Prop :=
  0 <= aget (m_bitCounts (self w)) i <= BITS_PER_NATIVE_RANDOM /\
  0 <= aget (m_bits (self w)) i < 2 ^ aget (m_bitCounts (self w)) i.

Definition wf (w : world) : Prop :=
  buffer_ok w 0 /\ buffer_ok w 1 /\
  (m_ctrlIndex (self w) = 0 \/ m_ctrlIndex (self w) = 1).

(** The public operations, with arguments of their C++ types. *)
Inductive op : Type :=
| Op_randomSeed (seed : Z)
| Op_randomBits (bit_count offset : Z)
| Op_random (min_val max_val : Z)
| Op_random1 (max_val : Z).

Definition well_typed (o : op) : Prop :=
  match o with
  | Op_randomSeed seed => is_uint32 seed
  | Op_randomBits bit_count offset => is_uint8 bit_count /\ is_long offset
  | Op_random min_val max_val => is_long min_val /\ is_long max_val
  | Op_random1 max_val => is_long max_val
  end.

Definition run_op (o : op) (w : world) : world :=
  match o with
  | Op_randomSeed seed => randomSeed seed w
  | Op_randomBits bit_count offset => snd (randomBits bit_count offset w)
  | Op_random min_val max_val => snd (random min_val max_val w)
  | Op_random1 max_val => snd (random1 max_val w)
  end.

(** The states a program can observe: the constructor followed by any
    sequence of public operations. *)
Inductive reachable : world -> Prop :=
| reachable_construct (seed : Z) (s : S) : reachable (construct seed s)
| reachable_step (o : op) (w : world) :
    well_typed o -> reachable w -> reachable (run_op o w).

Definition run_ops (os : list op) (w : world) : world :=
  fold_left (fun w o => run_op o w) os w.

(** Bit [j] of the value an extraction of [bit_count] bits delivers when
    it is assembled from unconsumed bits only: from positions below
    [bit_count] of the active buffer when the cache suffices, and
    otherwise from the [cur_count w] positions the buffer still holds
    (as the high part) and the low positions of the fresh word. *)
Definition extracted_bit (bit_count : Z) (w : world) (j : Z) : bool :=
  if bit_count <=? cur_count w then
    (j <? bit_count) && Z.testbit (cur_bits w) j
  else
    let k := bit_count - cur_count w in
    if j <? k then Z.testbit (fst (call_native_random LONG_MAX w)) j
    else (j - k <? cur_count w) && Z.testbit (cur_bits w) (j - k).

(** The span [random] actually samples: [max_val - min_val - 1],
    capped. *)
Definition sampled_span (min_val max_val : Z) : Z :=
  Z.min (to_long (max_val - min_val - 1)) MAX_VALUE_PER_RANDOM_REQUEST.

(** The number of unconsumed bits the two buffers hold together. *)
Definition cached_bits (w : world) : Z :=
  aget (m_bitCounts (self w)) 0 + aget (m_bitCounts (self w)) 1.

(** The number of bits a [randomBits] request takes: the request,
    capped. *)
Definition granted_bits (bit_count : Z) : Z :=
  Z.min bit_count MAX_BITS_PER_RANDOM_REQUEST.

(** Operations that go through the cache only: [randomBits] and
    [randomSeed]. *)
Definition bit_request (o : op) : Prop :=
  match o with
  | Op_randomSeed _ | Op_randomBits _ _ => True
  | Op_random _ _ | Op_random1 _ => False
  end.

Definition served_bits (o : op) : Z :=
  match o with
  | Op_randomBits bit_count _ => granted_bits bit_count
  | _ => 0
  end.

Definition bits_served (os : list op) : Z :=
  fold_right (fun o acc => served_bits o + acc) 0 os.

(** The buffer that is not the active one. *)
Definition other_index (w : world) : Z := 1 - m_ctrlIndex (self w).

(** The subtraction [max_val - min_val - 1] of [random] stays within
    [long], so that the C++ expression has defined behaviour. *)
Definition span_defined (min_val max_val : Z) : Prop :=
  is_long (max_val - min_val) /\ is_long (max_val - min_val - 1).

End Generator.

Arguments world S : clear implicits.

(** ** A scripted native source

    For concrete runs: the state is the list of raw words still to be
    delivered, [::random(howbig)] reduces the next word modulo [howbig]
    (as the Arduino core does with the word of the C library), and
    reseeding shifts the words still to come by the seed. *)

Module Scripted.

Definition next (howbig : Z) (s : list Z) : Z * list Z :=
  match s with
  | [] => (0, [])
  | x :: s' => (x mod howbig, s')
  end.

Definition reseed (seed : Z) (s : list Z) : list Z :=
  map (Z.add seed) s.

#[global, refine] Instance source : NativeSource (list Z) :=
  {| native_random := next; native_randomSeed := reseed |}.
Proof.
  intros howbig [|x s'] Hpos; cbn [next fst].
  - split; [apply Z.le_refl | exact Hpos].
  - apply Z.mod_pos_bound; exact Hpos.
Defined.

End Scripted.

(** ** Sample generators

    Concrete states over the scripted source, used to run the model. *)

Module Samples.

(** A freshly constructed generator; the script leaves 1000 and
    12345678 in the two buffers. *)
Definition fresh_generator : world (list Z) :=
  construct (src := Scripted.source) 0 [2147484647; 12345678; 77; 88; 99].

(** A generator whose two buffers are drained to their seven top bits,
    all set, with a script that makes the two draws and the two peeks of
    [random(0, 201)] fail. *)
Definition drained_generator : world (list Z) :=
  run_ops (src := Scripted.source)
    [Op_randomBits 20 0; Op_randomBits 20 0;
     Op_randomBits 4 0; Op_randomBits 4 0]
    (construct (src := Scripted.source) 0
       [2147483646; 2147483646; 510; 510; 1234]).

(** A state no run produces: buffer 0 claims two unconsumed bits but
    has bit 2 set. *)
Definition dirty_generator : world (list Z) :=
  World (MkRandomX1 (Array2 5 0) (Array2 2 31) 0) [0] 0.

End Samples.

(** ** Facts about the machine integers and the tables *)

Section Arithmetic.

Lemma to_uint8_small z : 0 <= z <= 255 -> to_uint8 z = z.
Proof. intros H. unfold to_uint8. apply Z.mod_small. lia. Qed.

Lemma to_uint32_small z : 0 <= z < 2 ^ 32 -> to_uint32 z = z.
Proof. intros H. unfold to_uint32. apply Z.mod_small. lia. Qed.

Lemma to_long_small z : LONG_MIN <= z <= LONG_MAX -> to_long z = z.
Proof.
  unfold to_long, LONG_MIN, LONG_MAX. intros H.
  rewrite Z.mod_small; lia.
Qed.

Lemma to_long_range z : LONG_MIN <= to_long z <= LONG_MAX.
Proof.
  unfold to_long, LONG_MIN, LONG_MAX.
  pose proof (Z.mod_pos_bound (z + 2 ^ 31) (2 ^ 32) ltac:(lia)). lia.
Qed.

(** A boolean property checked on [0 .. n-1] holds on that interval. *)
Lemma forallb_below (P : Z -> bool) (n : nat) :
  forallb (fun k => P (Z.of_nat k)) (seq 0 n) = true ->
  forall z, 0 <= z < Z.of_nat n -> P z = true.
Proof.
  intros Hall z Hz. rewrite forallb_forall in Hall.
  rewrite <- (Z2Nat.id z) by lia. apply Hall.
  apply in_seq. lia.
Qed.

Lemma pow2_le_mono a b : 0 <= a <= b -> 2 ^ a <= 2 ^ b.
Proof. intros H. apply Z.pow_le_mono_r; lia. Qed.

Lemma pow2_pos a : 0 <= a -> 0 < 2 ^ a.
Proof. intros H. apply Z.pow_pos_nonneg; lia. Qed.

(** [_get_mask] selects the low [n] bits. *)
Lemma _get_mask_ones n : 0 <= n <= 31 -> _get_mask n = Z.ones n.
Proof.
  intros H.
  apply Z.eqb_eq.
  apply (forallb_below (fun k => _get_mask k =? Z.ones k) 32).
  - vm_compute. reflexivity.
  - lia.
Qed.

Lemma _get_mask_range n : 0 <= n <= 31 -> 0 <= _get_mask n < 2 ^ 31.
Proof.
  intros H. rewrite _get_mask_ones by assumption.
  rewrite Z.ones_equiv.
  pose proof (pow2_pos n ltac:(lia)).
  pose proof (pow2_le_mono n 31 ltac:(lia)). lia.
Qed.

Lemma land_mask x n :
  0 <= n <= 31 -> Z.land x (to_uint32 (_get_mask n)) = x mod 2 ^ n.
Proof.
  intros H. pose proof (_get_mask_range n H).
  rewrite to_uint32_small by lia.
  rewrite _get_mask_ones by assumption.
  apply Z.land_ones. lia.
Qed.

Lemma lor_below a b k :
  0 <= k -> 0 <= a < 2 ^ k -> 0 <= b < 2 ^ k -> 0 <= Z.lor a b < 2 ^ k.
Proof.
  intros Hk Ha Hb. split.
  - apply Z.lor_nonneg. lia.
  - destruct (Z.eq_dec a 0) as [->|Na].
    + rewrite Z.lor_0_l. lia.
    + destruct (Z.eq_dec b 0) as [->|Nb].
      * rewrite Z.lor_0_r. lia.
      * assert (Hpos : 0 < Z.lor a b).
        { assert (0 <= Z.lor a b) by (apply Z.lor_nonneg; lia).
          assert (Z.lor a b <> 0) by (rewrite Z.lor_eq_0_iff; tauto).
          lia. }
        apply Z.log2_lt_pow2; [assumption|].
        rewrite Z.log2_lor by lia.
        apply Z.max_lub_lt; apply Z.log2_lt_pow2; lia.
Qed.

Lemma shiftl_below a n k :
  0 <= n -> 0 <= k -> 0 <= a < 2 ^ k -> 0 <= Z.shiftl a n < 2 ^ (k + n).
Proof.
  intros Hn Hk Ha. rewrite Z.shiftl_mul_pow2 by assumption.
  rewrite Z.pow_add_r by assumption.
  pose proof (pow2_pos n Hn). nia.
Qed.

Lemma shiftr_below a n k :
  0 <= n <= k -> 0 <= a < 2 ^ k -> 0 <= Z.shiftr a n < 2 ^ (k - n).
Proof.
  intros Hn Ha. rewrite Z.shiftr_div_pow2 by lia.
  pose proof (pow2_pos n ltac:(lia)).
  split.
  - apply Z.div_pos; lia.
  - apply Z.div_lt_upper_bound; [lia|].
    rewrite <- Z.pow_add_r by lia.
    replace (n + (k - n)) with k by lia. lia.
Qed.

Lemma bit_width_pos n : 0 < n -> bit_width n = Z.log2 n + 1.
Proof.
  intros H. unfold bit_width.
  rewrite Z.log2_up_eqn by lia.
  replace (Z.pred (n + 1)) with n by lia. lia.
Qed.

Lemma bit_width_shift8 n :
  0 < Z.shiftr n 8 -> bit_width n = 8 + bit_width (Z.shiftr n 8).
Proof.
  intros H.
  assert (Hn : 0 < n).
  { destruct (Z_lt_le_dec 0 n) as [|Hle]; [assumption|].
    exfalso.
    destruct (Z.eq_dec n 0) as [->|Hne].
    - rewrite Z.shiftr_0_l in H. lia.
    - assert (Hneg : n < 0) by lia.
      apply (Z.shiftr_neg n 8) in Hneg. lia. }
  rewrite !bit_width_pos by assumption.
  rewrite Z.log2_shiftr by assumption.
  assert (0 < Z.log2 (Z.shiftr n 8) \/ Z.shiftr n 8 = 1).
  { destruct (Z.eq_dec (Z.shiftr n 8) 1) as [|Hne]; [now right|left].
    apply Z.log2_pos. lia. }
  assert (Hlog : 8 <= Z.log2 n).
  { apply Z.log2_le_pow2; [assumption|].
    rewrite Z.shiftr_div_pow2 in H by lia.
    change (2 ^ 8) with 256 in *.
    destruct (Z_lt_le_dec n 256) as [Hlt|]; [|assumption].
    rewrite Z.div_small in H by lia. lia. }
  lia.
Qed.

Lemma REQUIRED_BITS_length : length REQUIRED_BITS = 256%nat.
Proof. reflexivity. Qed.

Lemma REQUIRED_BITS_byte k :
  0 <= k < 256 -> index REQUIRED_BITS k = bit_width k.
Proof.
  intros H. apply Z.eqb_eq.
  apply (forallb_below (fun k => index REQUIRED_BITS k =? bit_width k) 256).
  - vm_compute. reflexivity.
  - lia.
Qed.

Lemma bit_width_below n k : 0 <= k -> 0 <= n < 2 ^ k -> 0 <= bit_width n <= k.
Proof.
  intros Hk Hn. unfold bit_width. split.
  - apply Z.log2_up_nonneg.
  - destruct (Z.eq_dec n 0) as [->|Hne].
    + cbn. lia.
    + apply Z.log2_up_le_pow2; lia.
Qed.

(** The shift chain of [_get_required_bits] computes the bit width of
    every non-negative [long]. *)
Lemma _get_required_bits_width n :
  0 <= n <= LONG_MAX -> _get_required_bits n = bit_width n.
Proof.
  unfold LONG_MAX. intros Hn.
  assert (H8 : 0 <= Z.shiftr n 8 < 2 ^ 23)
    by (apply (shiftr_below n 8 31); lia).
  unfold _get_required_bits.
  rewrite (to_uint32_small (Z.shiftr n 8)) by lia.
  destruct (Z.eqb_spec (Z.shiftr n 8) 0) as [E1|E1].
  - assert (Hb : 0 <= n < 256).
    { rewrite Z.shiftr_div_pow2 in E1 by lia.
      change (2 ^ 8) with 256 in E1.
      destruct (Z_lt_le_dec n 256) as [|Hge]; [lia|].
      assert (1 <= n / 256) by (apply Z.div_le_lower_bound; lia). lia. }
    rewrite REQUIRED_BITS_byte by assumption.
    apply to_uint8_small.
    pose proof (bit_width_below n 8 ltac:(lia) ltac:(lia)). lia.
  - rewrite (bit_width_shift8 n) by lia.
    set (t := Z.shiftr n 8) in *.
    assert (H16 : 0 <= Z.shiftr t 8 < 2 ^ 15)
      by (apply (shiftr_below t 8 23); lia).
    rewrite (to_long_small (Z.shiftr t 8)) by (unfold LONG_MIN, LONG_MAX; lia).
    destruct (Z.eqb_spec (Z.shiftr t 8) 0) as [E2|E2].
    + assert (Hb : 0 <= t < 256).
      { rewrite Z.shiftr_div_pow2 in E2 by lia.
        change (2 ^ 8) with 256 in E2.
        destruct (Z_lt_le_dec t 256) as [|Hge]; [lia|].
        assert (1 <= t / 256) by (apply Z.div_le_lower_bound; lia). lia. }
      rewrite REQUIRED_BITS_byte by assumption.
      apply to_uint8_small.
      pose proof (bit_width_below t 8 ltac:(lia) ltac:(lia)). lia.
    + rewrite (bit_width_shift8 t) by lia.
      set (u := Z.shiftr t 8) in *.
      assert (H24 : 0 <= Z.shiftr u 8 < 2 ^ 7)
        by (apply (shiftr_below u 8 15); lia).
      rewrite (to_uint32_small (Z.shiftr u 8)) by lia.
      destruct (Z.eqb_spec (Z.shiftr u 8) 0) as [E3|E3].
      * assert (Hb : 0 <= u < 256).
        { rewrite Z.shiftr_div_pow2 in E3 by lia.
          change (2 ^ 8) with 256 in E3.
          destruct (Z_lt_le_dec u 256) as [|Hge]; [lia|].
          assert (1 <= u / 256) by (apply Z.div_le_lower_bound; lia). lia. }
        rewrite REQUIRED_BITS_byte by assumption.
        rewrite to_uint8_small; [lia|].
        pose proof (bit_width_below u 8 ltac:(lia) ltac:(lia)). lia.
      * rewrite (bit_width_shift8 u) by lia.
        set (v := Z.shiftr u 8) in *.
        rewrite REQUIRED_BITS_byte by lia.
        rewrite to_uint8_small; [lia|].
        pose proof (bit_width_below v 7 ltac:(lia) ltac:(lia)). lia.
Qed.

End Arithmetic.

(** ** The bit extractor *)

Section Extraction.

Context {S : Type} {src : NativeSource S}.

Lemma aget_aset_same a i v : aget (aset a i v) i = v.
Proof. unfold aget, aset. destruct (i =? 0); reflexivity. Qed.

Lemma aget_aset_other a i j v :
  (i = 0 \/ i = 1) -> (j = 0 \/ j = 1) -> i <> j ->
  aget (aset a i v) j = aget a j.
Proof.
  intros [-> | ->] [-> | ->] Hne; try contradiction; reflexivity.
Qed.

Lemma cur_bits_set_cur_count c (w : world S) :
  cur_bits (set_cur_count c w) = cur_bits w.
Proof. reflexivity. Qed.

Lemma native_random_LONG_MAX (w : world S) :
  0 <= fst (call_native_random LONG_MAX w) < LONG_MAX.
Proof.
  unfold call_native_random.
  pose proof (native_random_range LONG_MAX (source w) eq_refl) as H.
  destruct (native_random LONG_MAX (source w)); exact H.
Qed.

(** Writing count [c] and word [b] into the active buffer keeps the
    state well formed when [b] fits in [c] bits. *)
Lemma wf_store (w w' : world S) c b :
  wf w -> self w' = self w ->
  0 <= c <= BITS_PER_NATIVE_RANDOM -> 0 <= b < 2 ^ c ->
  wf (set_cur_bits b (set_cur_count c w')).
Proof.
  intros (H0 & H1 & Hi) Hs Hc Hb.
  unfold wf, buffer_ok, set_cur_bits, set_cur_count, with_self in *.
  cbn [self m_bits m_bitCounts m_ctrlIndex]. rewrite Hs.
  destruct Hi as [Hi | Hi]; rewrite Hi in *;
    unfold aget, aset in *; cbn [Z.eqb elt0 elt1] in *; auto.
Qed.

(** The request is served from the cache: the low [bit_count] bits of
    the active buffer, which is shifted down by as many. *)
Lemma _get_bits_cached (w : world S) bit_count :
  wf w -> 0 <= bit_count <= cur_count w ->
  _get_bits bit_count w =
    (cur_bits w mod 2 ^ bit_count,
     set_cur_bits (Z.shiftr (cur_bits w) bit_count)
                  (set_cur_count (cur_count w - bit_count) w)).
Proof.
  intros Hwf Hbc.
  assert (Hcur : 0 <= cur_count w <= 31 /\ 0 <= cur_bits w < 2 ^ cur_count w).
  { destruct Hwf as (H0 & H1 & [Hi | Hi]); unfold cur_count, cur_bits;
      rewrite Hi; [exact H0 | exact H1]. }
  destruct Hcur as [Hc Hb].
  unfold _get_bits.
  destruct (Z.ltb_spec (cur_count w) bit_count) as [Hlt | _]; [lia|].
  cbv beta iota.
  rewrite land_mask by lia.
  replace (to_uint32 0) with 0 by reflexivity. rewrite Z.lor_0_l.
  assert (Hm : 0 <= cur_bits w mod 2 ^ bit_count < 2 ^ bit_count)
    by (apply Z.mod_pos_bound, pow2_pos; lia).
  pose proof (pow2_le_mono bit_count 31 ltac:(lia)) as Hp.
  rewrite to_long_small by (unfold LONG_MIN, LONG_MAX; lia).
  rewrite to_uint8_small by lia.
  reflexivity.
Qed.

(** The cache runs short: the remaining bits become the high part of
    the result, the buffer is refilled by one native call, and the low
    part comes from the fresh word. *)
Lemma _get_bits_refill (w : world S) bit_count :
  wf w -> cur_count w < bit_count <= 31 ->
  let k := bit_count - cur_count w in
  let fresh := fst (call_native_random LONG_MAX w) in
  let w1 := snd (call_native_random LONG_MAX w) in
  _get_bits bit_count w =
    (Z.lor (Z.shiftl (cur_bits w) k) (fresh mod 2 ^ k),
     set_cur_bits (Z.shiftr fresh k)
       (set_cur_count (BITS_PER_NATIVE_RANDOM - k)
          (set_cur_count BITS_PER_NATIVE_RANDOM (set_cur_bits fresh w1)))).
Proof.
  intros Hwf Hbc k fresh w1.
  assert (Hcur : 0 <= cur_count w <= 31 /\ 0 <= cur_bits w < 2 ^ cur_count w).
  { destruct Hwf as (H0 & H1 & [Hi | Hi]); unfold cur_count, cur_bits;
      rewrite Hi; [exact H0 | exact H1]. }
  destruct Hcur as [Hc Hb].
  pose proof (native_random_LONG_MAX w) as Hfresh. fold fresh in Hfresh.
  unfold LONG_MAX in Hfresh.
  unfold _get_bits.
  destruct (Z.ltb_spec (cur_count w) bit_count) as [_ | Hge]; [|lia].
  rewrite (to_uint8_small (bit_count - cur_count w)) by lia. fold k.
  rewrite (surjective_pairing (call_native_random LONG_MAX w)).
  fold fresh w1. cbv beta iota.
  rewrite (to_uint32_small fresh) by lia.
  assert (Hhigh : 0 <= Z.shiftl (cur_bits w) k < 2 ^ bit_count).
  { replace bit_count with (cur_count w + k) by (unfold k; lia).
    apply shiftl_below; unfold k; lia. }
  pose proof (pow2_le_mono bit_count 31 ltac:(lia)) as Hp.
  rewrite (to_uint32_small (Z.shiftl (cur_bits w) k)) by lia.
  rewrite (to_long_small (Z.shiftl (cur_bits w) k))
    by (unfold LONG_MIN, LONG_MAX; lia).
  rewrite (to_uint32_small (Z.shiftl (cur_bits w) k)) by lia.
  assert (Hcb : cur_bits (set_cur_count BITS_PER_NATIVE_RANDOM
                            (set_cur_bits fresh w1)) = fresh).
  { unfold cur_bits, set_cur_count, set_cur_bits, with_self.
    cbn [self m_bits m_ctrlIndex]. apply aget_aset_same. }
  assert (Hcc : cur_count (set_cur_count BITS_PER_NATIVE_RANDOM
                             (set_cur_bits fresh w1))
                = BITS_PER_NATIVE_RANDOM).
  { unfold cur_count, set_cur_count, set_cur_bits, with_self.
    cbn [self m_bitCounts m_ctrlIndex]. apply aget_aset_same. }
  rewrite Hcb, Hcc.
  rewrite land_mask by (unfold k; lia).
  assert (Hlow : 0 <= fresh mod 2 ^ k < 2 ^ k)
    by (apply Z.mod_pos_bound, pow2_pos; unfold k; lia).
  pose proof (pow2_le_mono k bit_count ltac:(unfold k; lia)) as Hpk.
  pose proof (lor_below (Z.shiftl (cur_bits w) k) (fresh mod 2 ^ k) bit_count
                ltac:(lia) Hhigh ltac:(lia)) as Hlor.
  rewrite to_long_small by (unfold LONG_MIN, LONG_MAX; lia).
  rewrite to_uint8_small by (unfold BITS_PER_NATIVE_RANDOM, k; lia).
  rewrite cur_bits_set_cur_count, Hcb.
  reflexivity.
Qed.

Lemma wf_cur (w : world S) :
  wf w ->
  0 <= cur_count w <= 31 /\ 0 <= cur_bits w < 2 ^ cur_count w.
Proof.
  intros (H0 & H1 & [Hi | Hi]); unfold cur_count, cur_bits;
    rewrite Hi; [exact H0 | exact H1].
Qed.

(** What every extraction guarantees: a value of [bit_count] bits, a
    well-formed state with the same active buffer, and at most one call
    to the native source (none when the cache suffices). *)
Lemma _get_bits_sound (w : world S) bit_count v w' :
  wf w -> 0 <= bit_count <= 31 ->
  _get_bits bit_count w = (v, w') ->
  0 <= v < 2 ^ bit_count /\ wf w' /\
  m_ctrlIndex (self w') = m_ctrlIndex (self w) /\
  (native_calls w <= native_calls w' <= native_calls w + 1)%nat /\
  (bit_count <= cur_count w ->
   native_calls w' = native_calls w /\ v = cur_bits w mod 2 ^ bit_count).
Proof.
  intros Hwf Hbc Hrun.
  destruct (wf_cur w Hwf) as [Hc Hb].
  destruct (Z_le_gt_dec bit_count (cur_count w)) as [Hle | Hgt].
  - rewrite _get_bits_cached in Hrun by (assumption || lia).
    injection Hrun as <- <-.
    split; [|split; [|split; [|split]]].
    + apply Z.mod_pos_bound, pow2_pos; lia.
    + apply wf_store with (w := w);
        [assumption | reflexivity | unfold BITS_PER_NATIVE_RANDOM; lia |].
      apply shiftr_below; lia.
    + reflexivity.
    + cbn. lia.
    + intros _. split; reflexivity.
  - pose proof (_get_bits_refill w bit_count Hwf ltac:(lia)) as Heq.
    cbv zeta in Heq. rewrite Heq in Hrun. clear Heq.
    pose proof (native_random_LONG_MAX w) as Hfresh.
    set (k := bit_count - cur_count w) in *.
    set (fresh := fst (call_native_random LONG_MAX w)) in *.
    unfold LONG_MAX in Hfresh.
    assert (Hw1 : self (snd (call_native_random LONG_MAX w)) = self w /\
                  native_calls (snd (call_native_random LONG_MAX w))
                  = Datatypes.S (native_calls w)).
    { unfold call_native_random.
      destruct (native_random LONG_MAX (source w)); split; reflexivity. }
    destruct Hw1 as [Hself Hcalls].
    injection Hrun as <- <-.
    assert (Hk : 0 < k <= 31) by (unfold k; lia).
    split; [|split; [|split; [|split]]].
    + apply lor_below; [lia | |].
      * replace bit_count with (cur_count w + k) by (unfold k; lia).
        apply shiftl_below; lia.
      * pose proof (Z.mod_pos_bound fresh (2 ^ k) (pow2_pos k ltac:(lia))).
        pose proof (pow2_le_mono k bit_count ltac:(unfold k; lia)). lia.
    + assert (Hmid : wf (set_cur_count BITS_PER_NATIVE_RANDOM
                           (set_cur_bits fresh
                              (snd (call_native_random LONG_MAX w))))).
      { change (wf (set_cur_bits fresh
                      (set_cur_count BITS_PER_NATIVE_RANDOM
                         (snd (call_native_random LONG_MAX w))))).
        apply wf_store with (w := w);
          [assumption | assumption | unfold BITS_PER_NATIVE_RANDOM; lia |].
        unfold BITS_PER_NATIVE_RANDOM. lia. }
      apply (wf_store _ _ (BITS_PER_NATIVE_RANDOM - k) (Z.shiftr fresh k)
                      Hmid eq_refl).
      * unfold BITS_PER_NATIVE_RANDOM. lia.
      * replace (BITS_PER_NATIVE_RANDOM - k) with (31 - k) by reflexivity.
        apply shiftr_below; lia.
    + cbn. rewrite Hself. reflexivity.
    + cbn. rewrite Hcalls. lia.
    + intros Hle. lia.
Qed.

Lemma toggle_index_wf (w : world S) : wf w -> wf (toggle_index w).
Proof.
  intros (H0 & H1 & Hi). unfold wf, buffer_ok, toggle_index, with_self in *.
  cbn [self m_bits m_bitCounts m_ctrlIndex].
  repeat split; try tauto.
  destruct Hi as [-> | ->]; [right | left]; reflexivity.
Qed.

Lemma toggle_index_calls (w : world S) :
  native_calls (toggle_index w) = native_calls w.
Proof. reflexivity. Qed.

(** [randomBits] on a non-zero request: the request is capped at
    [MAX_BITS_PER_RANDOM_REQUEST] and served by one extraction from the
    other buffer. *)
Lemma randomBits_sound (w : world S) bit_count offset v w' :
  wf w -> 0 < bit_count <= 255 ->
  randomBits bit_count offset w = (v, w') ->
  exists bits,
    0 <= bits < 2 ^ Z.min bit_count MAX_BITS_PER_RANDOM_REQUEST /\
    v = to_long (bits + offset) /\ wf w' /\
    (native_calls w <= native_calls w' <= native_calls w + 1)%nat.
Proof.
  intros Hwf Hbc Hrun. unfold randomBits in Hrun.
  destruct (Z.eqb_spec bit_count 0) as [|_]; [lia|].
  set (c := if MAX_BITS_PER_RANDOM_REQUEST <? bit_count
            then MAX_BITS_PER_RANDOM_REQUEST else bit_count) in *.
  assert (Hc : c = Z.min bit_count MAX_BITS_PER_RANDOM_REQUEST).
  { unfold c, MAX_BITS_PER_RANDOM_REQUEST.
    destruct (Z.ltb_spec 20 bit_count); lia. }
  destruct (_get_bits c (toggle_index w)) as [bits w1] eqn:Hget.
  injection Hrun as <- <-.
  apply _get_bits_sound in Hget;
    [| apply toggle_index_wf; assumption
     | unfold MAX_BITS_PER_RANDOM_REQUEST in Hc; lia].
  destruct Hget as (Hv & Hwf1 & _ & Hcalls & _).
  rewrite toggle_index_calls in Hcalls.
  exists bits. rewrite <- Hc. auto.
Qed.

(** A peek never calls the native source.  When it succeeds, the value
    it hands out is below [num]; when it fails, nothing changes. *)
Lemma _peek_bits_sound (w : world S) bit_count num res ok res' w' :
  wf w -> 0 <= bit_count <= 31 -> 0 < num <= LONG_MAX ->
  _peek_bits bit_count num res w = ((ok, res'), w') ->
  wf w' /\ native_calls w' = native_calls w /\
  (if ok then 0 <= res' < num else res' = res /\ w' = w).
Proof.
  intros Hwf Hbc Hnum Hrun. unfold _peek_bits in Hrun.
  unfold LONG_MAX in Hnum.
  rewrite land_mask in Hrun by assumption.
  rewrite (to_uint32_small num) in Hrun by lia.
  destruct (Z.leb_spec bit_count (cur_count w)) as [Hle | Hgt].
  - destruct (Z.ltb_spec (cur_bits w mod 2 ^ bit_count) num) as [Hlt | Hge].
    + destruct (_get_bits bit_count w) as [v w1] eqn:Hget.
      injection Hrun as <- <- <-.
      apply _get_bits_sound in Hget; [| assumption | assumption].
      destruct Hget as (Hv & Hwf1 & _ & _ & Hcached).
      destruct (Hcached Hle) as [Hcalls ->].
      split; [assumption | split; [assumption | lia]].
    + injection Hrun as <- <- <-. auto.
  - injection Hrun as <- <- <-. auto.
Qed.

End Extraction.

(** ** The range sampler *)

Section Sampler.

Context {S : Type} {src : NativeSource S}.

Lemma MAX_VALUE_PER_RANDOM_REQUEST_value : MAX_VALUE_PER_RANDOM_REQUEST = 255.
Proof. reflexivity. Qed.

Lemma random_degenerate (w : world S) min_val max_val :
  to_long (max_val - min_val - 1) <= 0 ->
  random min_val max_val w = (0, w).
Proof.
  intros H. unfold random, random_capped.
  destruct (Z.leb_spec (to_long (max_val - min_val - 1)) 0); [reflexivity|lia].
Qed.

Lemma randomBits_plain (w : world S) req v w' :
  wf w -> 0 < req <= 20 ->
  randomBits req 0 w = (v, w') ->
  0 <= v < 2 ^ req /\ wf w' /\
  (native_calls w <= native_calls w' <= native_calls w + 1)%nat.
Proof.
  intros Hwf Hreq Hrun.
  apply randomBits_sound in Hrun; [| assumption | lia].
  destruct Hrun as (bits & Hbits & -> & Hwf' & Hcalls).
  unfold MAX_BITS_PER_RANDOM_REQUEST in Hbits.
  rewrite Z.min_l in Hbits by lia.
  pose proof (pow2_le_mono req 20 ltac:(lia)).
  rewrite Z.add_0_r, to_long_small by (unfold LONG_MIN, LONG_MAX; lia).
  auto.
Qed.

Ltac accept_candidate :=
  split; [lia | split; [reflexivity | split; [assumption | lia]]].

(** Every non-degenerate request returns [min_val] plus an offset below
    the sampled span, keeps the state well formed, and calls the native
    source at most three times: one refill for each of the two draws and
    the fallback. *)
Lemma random_sound (w : world S) min_val max_val v w' :
  wf w -> 0 < to_long (max_val - min_val - 1) ->
  random min_val max_val w = (v, w') ->
  exists res,
    0 <= res < sampled_span min_val max_val /\
    v = to_long (res + min_val) /\ wf w' /\
    (native_calls w <= native_calls w' <= native_calls w + 3)%nat.
Proof.
  intros Hwf Hpos Hrun. unfold random, random_capped in Hrun.
  unfold sampled_span.
  pose proof (to_long_range (max_val - min_val - 1)) as Hlong.
  set (d0 := to_long (max_val - min_val - 1)) in *.
  destruct (Z.leb_spec d0 0) as [|_]; [lia|].
  change MAX_VALUE_PER_RANDOM_REQUEST with 255 in *.
  set (d := if 255 <? d0 then 255 else d0) in *.
  assert (Hd : d = Z.min d0 255) by (unfold d; destruct (Z.ltb_spec 255 d0); lia).
  rewrite <- Hd.
  assert (Hdr : 0 < d <= 255) by lia.
  assert (Hreq : 0 < _get_required_bits d <= 8).
  { rewrite _get_required_bits_width by (unfold LONG_MAX; lia).
    pose proof (bit_width_below d 8 ltac:(lia) ltac:(lia)).
    rewrite bit_width_pos in * by lia.
    pose proof (Z.log2_nonneg d). lia. }
  set (req := _get_required_bits d) in *.
  assert (Hnum : 0 < d <= LONG_MAX) by (unfold LONG_MAX; lia).
  destruct (randomBits req 0 w) as [r1 w1] eqn:E1.
  apply randomBits_plain in E1; [| assumption | lia].
  destruct E1 as (Hr1 & Hwf1 & Hc1).
  destruct (Z.leb_spec d r1) as [Hrej1 | Hacc1].
  2:{ injection Hrun as <- <-. exists r1. accept_candidate. }
  destruct (randomBits req 0 w1) as [r2 w2] eqn:E2.
  apply randomBits_plain in E2; [| assumption | lia].
  destruct E2 as (Hr2 & Hwf2 & Hc2).
  destruct (Z.leb_spec d r2) as [Hrej2 | Hacc2].
  2:{ injection Hrun as <- <-. exists r2. accept_candidate. }
  destruct (_peek_bits req d r2 w2) as [[ok3 r3] w3] eqn:E3.
  apply _peek_bits_sound in E3; [| assumption | lia | assumption].
  destruct E3 as (Hwf3 & Hc3 & Hr3).
  destruct ok3; cbn [negb] in Hrun.
  { injection Hrun as <- <-. exists r3. accept_candidate. }
  destruct Hr3 as [-> ->].
  destruct (Z.leb_spec d r2) as [_ | Hlt]; [|lia].
  destruct (_peek_bits req d r2 (toggle_index w2)) as [[ok4 r4] w4] eqn:E4.
  apply _peek_bits_sound in E4;
    [| apply toggle_index_wf; assumption | lia | assumption].
  rewrite toggle_index_calls in E4.
  destruct E4 as (Hwf4 & Hc4 & Hr4).
  destruct ok4; cbn [negb] in Hrun.
  { injection Hrun as <- <-. exists r4. accept_candidate. }
  destruct Hr4 as [-> ->].
  unfold call_native_random in Hrun.
  pose proof (native_random_range d (source (toggle_index w2)) ltac:(lia)) as Hnat.
  destruct (native_random d (source (toggle_index w2))) as [r5 s5].
  cbn [fst] in Hnat.
  injection Hrun as <- <-. exists r5.
  split; [lia | split; [reflexivity | split]].
  - destruct (toggle_index_wf w2 Hwf2) as (A & B & C).
    split; [exact A | split; [exact B | exact C]].
  - cbn [native_calls]. pose proof (toggle_index_calls w2). lia.
Qed.

(** *** Calls to the native source, in any state *)

Lemma _get_bits_calls (w : world S) bit_count :
  (native_calls w <= native_calls (snd (_get_bits bit_count w))
   <= native_calls w + 1)%nat /\
  (bit_count <= cur_count w ->
   native_calls (snd (_get_bits bit_count w)) = native_calls w).
Proof.
  unfold _get_bits.
  destruct (Z.ltb_spec (cur_count w) bit_count) as [Hlt | Hge].
  - unfold call_native_random.
    destruct (native_random LONG_MAX (source w)) as [fresh s'].
    cbn. split; [lia | intros H; lia].
  - cbn. split; [lia | reflexivity].
Qed.

Lemma randomBits_calls (w : world S) bit_count offset :
  (native_calls w <= native_calls (snd (randomBits bit_count offset w))
   <= native_calls w + 1)%nat.
Proof.
  unfold randomBits. destruct (bit_count =? 0); [cbn; lia|].
  set (c := if MAX_BITS_PER_RANDOM_REQUEST <? bit_count
            then MAX_BITS_PER_RANDOM_REQUEST else bit_count).
  pose proof (proj1 (_get_bits_calls (toggle_index w) c)) as H.
  rewrite toggle_index_calls in H.
  destruct (_get_bits c (toggle_index w)) as [bits w1]. exact H.
Qed.

Lemma _peek_bits_calls (w : world S) bit_count num res :
  native_calls (snd (_peek_bits bit_count num res w)) = native_calls w.
Proof.
  unfold _peek_bits.
  destruct (Z.leb_spec bit_count (cur_count w)) as [Hle | Hgt];
    [|reflexivity].
  destruct (_ <? _); [|reflexivity].
  pose proof (proj2 (_get_bits_calls w bit_count) Hle) as H.
  destruct (_get_bits bit_count w) as [v w1]. exact H.
Qed.

Lemma call_native_random_calls (w : world S) howbig :
  native_calls (snd (call_native_random howbig w))
  = Datatypes.S (native_calls w).
Proof.
  unfold call_native_random.
  destruct (native_random howbig (source w)); reflexivity.
Qed.

Lemma random_calls (w : world S) min_val max_val :
  (native_calls w <= native_calls (snd (random min_val max_val w))
   <= native_calls w + 3)%nat.
Proof.
  unfold random, random_capped.
  destruct (_ <=? 0); [cbn; lia|].
  set (d := if MAX_VALUE_PER_RANDOM_REQUEST <? _ then _ else _).
  set (req := _get_required_bits d).
  pose proof (randomBits_calls w req 0) as H1.
  destruct (randomBits req 0 w) as [r1 w1]. cbn [snd] in H1.
  destruct (d <=? r1); [|cbn; lia].
  pose proof (randomBits_calls w1 req 0) as H2.
  destruct (randomBits req 0 w1) as [r2 w2]. cbn [snd] in H2.
  destruct (d <=? r2) eqn:Hrej; [|cbn; lia].
  pose proof (_peek_bits_calls w2 req d r2) as H3.
  destruct (_peek_bits req d r2 w2) as [[ok3 r3] w3]. cbn [snd] in H3.
  destruct ok3; cbn [negb]; [cbn; lia|].
  destruct (d <=? r3); [|cbn; lia].
  pose proof (_peek_bits_calls (toggle_index w3) req d r3) as H4.
  rewrite toggle_index_calls in H4.
  destruct (_peek_bits req d r3 (toggle_index w3)) as [[ok4 r4] w4].
  cbn [snd] in H4.
  destruct ok4; cbn [negb]; [cbn; lia|].
  pose proof (call_native_random_calls w4 d) as H5.
  destruct (call_native_random d w4) as [r5 w5]. cbn [snd] in *. lia.
Qed.

(** *** Reachable states are well formed *)

Lemma construct_wf seed (s : S) : wf (construct seed s).
Proof.
  unfold construct, call_native_random. cbn [source self native_calls].
  pose proof (native_random_range LONG_MAX s eq_refl) as H0.
  destruct (native_random LONG_MAX s) as [b0 s0]. cbn [fst] in H0.
  cbn [with_self source self native_calls].
  pose proof (native_random_range LONG_MAX s0 eq_refl) as H1.
  destruct (native_random LONG_MAX s0) as [b1 s1]. cbn [fst] in H1.
  unfold LONG_MAX in H0, H1.
  rewrite (to_uint32_small b0), (to_uint32_small b1) by lia.
  unfold wf, buffer_ok, call_native_randomSeed, with_self.
  cbn [self source m_bits m_bitCounts m_ctrlIndex aget aset elt0 elt1 Z.eqb].
  unfold BITS_PER_NATIVE_RANDOM. lia.
Qed.

Lemma randomSeed_wf seed (w : world S) : wf w -> wf (randomSeed seed w).
Proof. intros H. exact H. Qed.

Lemma randomBits_wf (w : world S) bit_count offset :
  wf w -> is_uint8 bit_count -> wf (snd (randomBits bit_count offset w)).
Proof.
  intros Hwf Hbc. unfold is_uint8 in Hbc.
  destruct (Z.eq_dec bit_count 0) as [-> | Hne]; [exact Hwf|].
  destruct (randomBits bit_count offset w) as [v w'] eqn:E.
  apply randomBits_sound in E; [| assumption | lia].
  destruct E as (_ & _ & _ & H & _). exact H.
Qed.

Lemma random_wf (w : world S) min_val max_val :
  wf w -> wf (snd (random min_val max_val w)).
Proof.
  intros Hwf.
  destruct (Z_le_gt_dec (to_long (max_val - min_val - 1)) 0) as [Hle | Hgt].
  - rewrite random_degenerate by assumption. exact Hwf.
  - destruct (random min_val max_val w) as [v w'] eqn:E.
    apply random_sound in E; [| assumption | lia].
    destruct E as (_ & _ & _ & H & _). exact H.
Qed.

Lemma run_op_wf (o : op) (w : world S) :
  well_typed o -> wf w -> wf (run_op o w).
Proof.
  destruct o as [seed | bit_count offset | min_val max_val | max_val];
    cbn [well_typed run_op]; intros Hty Hwf.
  - apply randomSeed_wf; assumption.
  - apply randomBits_wf; tauto.
  - apply random_wf; assumption.
  - apply random_wf; assumption.
Qed.

Lemma reachable_wf (w : world S) : reachable w -> wf w.
Proof.
  induction 1 as [seed s | o w Hty Hreach IH].
  - apply construct_wf.
  - apply run_op_wf; assumption.
Qed.

End Sampler.

(** ** Consequences for reachable states *)

Section Reachable.

Context {S : Type} {src : NativeSource S}.

Lemma reachable_run_ops (os : list op) (w : world S) :
  Forall well_typed os -> reachable w -> reachable (run_ops os w).
Proof.
  intros Hty. revert w.
  induction Hty as [| o os Ho _ IH]; intros w Hw; cbn.
  - exact Hw.
  - apply IH. apply reachable_step; assumption.
Qed.

(** The value [random] returns on a proper range: [min_val] plus an
    offset below the capped span. *)
Lemma random_offset_bounds (w : world S) min_val max_val :
  wf w -> is_long min_val -> is_long max_val ->
  span_defined min_val max_val -> 2 <= max_val - min_val ->
  min_val <= fst (random min_val max_val w)
  < min_val + Z.min (max_val - min_val - 1) MAX_VALUE_PER_RANDOM_REQUEST.
Proof.
  intros Hwf Hmin Hmax [_ Hspan] Hle.
  unfold is_long, LONG_MIN, LONG_MAX in *.
  assert (Hd : to_long (max_val - min_val - 1) = max_val - min_val - 1)
    by (apply to_long_small; unfold LONG_MIN, LONG_MAX; lia).
  destruct (random min_val max_val w) as [v w'] eqn:E.
  apply random_sound in E; [| assumption | lia].
  destruct E as (res & Hres & -> & _). unfold sampled_span in Hres.
  rewrite Hd in Hres. cbn [fst].
  change MAX_VALUE_PER_RANDOM_REQUEST with 255 in *.
  rewrite to_long_small by (unfold LONG_MIN, LONG_MAX; lia). lia.
Qed.

Lemma testbit_above a n p :
  0 <= a < 2 ^ n -> n <= p -> Z.testbit a p = false.
Proof.
  intros Ha Hp.
  destruct (Z.eq_dec a 0) as [-> | Hne]; [apply Z.bits_0|].
  apply Z.bits_above_log2; [lia|].
  assert (0 <= n).
  { destruct (Z_lt_le_dec n 0) as [Hneg|]; [|assumption].
    rewrite Z.pow_neg_r in Ha by assumption. lia. }
  assert (Z.log2 a < n) by (apply Z.log2_lt_pow2; lia). lia.
Qed.

(** On a well-formed state the bits of an extraction are those of
    [extracted_bit]. *)
Lemma _get_bits_testbit (w : world S) bit_count j :
  wf w -> 0 <= bit_count <= 31 -> 0 <= j ->
  Z.testbit (fst (_get_bits bit_count w)) j = extracted_bit bit_count w j.
Proof.
  intros Hwf Hbc Hj. destruct (wf_cur w Hwf) as [Hc Hb].
  unfold extracted_bit.
  destruct (Z.leb_spec bit_count (cur_count w)) as [Hle | Hgt].
  - rewrite _get_bits_cached by (assumption || lia). cbn [fst].
    destruct (Z.ltb_spec j bit_count) as [Hlt | Hge]; cbn [andb].
    + apply Z.mod_pow2_bits_low. lia.
    + apply Z.mod_pow2_bits_high. lia.
  - pose proof (_get_bits_refill w bit_count Hwf ltac:(lia)) as Heq.
    cbv zeta in Heq. rewrite Heq. clear Heq. cbn [fst].
    set (k := bit_count - cur_count w).
    assert (Hk : 0 < k) by (unfold k; lia).
    rewrite Z.lor_spec, Z.shiftl_spec by assumption.
    destruct (Z.ltb_spec j k) as [Hlt | Hge].
    + rewrite (Z.testbit_neg_r _ (j - k)) by lia.
      rewrite Z.mod_pow2_bits_low by lia. reflexivity.
    + rewrite Z.mod_pow2_bits_high by lia. rewrite orb_false_r.
      destruct (Z.ltb_spec (j - k) (cur_count w)) as [Hin | Hout];
        cbn [andb]; [reflexivity|].
      apply (testbit_above _ (cur_count w)); assumption.
Qed.

(** The refill path shifts the whole buffer word and does not mask it:
    the result stays within [bit_count] bits because consumed positions
    are kept at zero.  On a state where they are not, it does not. *)
Remark _get_bits_refill_unmasked :
  ~ wf Samples.dirty_generator /\
  fst (_get_bits 3 Samples.dirty_generator) = 10.
Proof.
  split; [| reflexivity].
  intros ((_ & H) & _). vm_compute in H. destruct H as [_ H]. discriminate H.
Qed.

(** A peek decides on the low [bit_count] bits of the active buffer,
    and only when the buffer holds that many. *)
Lemma _peek_bits_decision (w : world S) bit_count num res :
  0 <= bit_count <= 31 -> 0 < num <= LONG_MAX ->
  fst (fst (_peek_bits bit_count num res w)) =
    (bit_count <=? cur_count w) && (cur_bits w mod 2 ^ bit_count <? num).
Proof.
  intros Hbc Hnum. unfold LONG_MAX in Hnum. unfold _peek_bits.
  rewrite land_mask by assumption.
  rewrite (to_uint32_small num) by lia.
  destruct (bit_count <=? cur_count w); cbn [andb]; [|reflexivity].
  destruct (cur_bits w mod 2 ^ bit_count <? num); [|reflexivity].
  destruct (_get_bits bit_count w); reflexivity.
Qed.

End Reachable.

(** ** Effects of an extraction on the state *)

Section Effects.

Context {S : Type} {src : NativeSource S}.

Lemma wf_index (w : world S) :
  wf w -> m_ctrlIndex (self w) = 0 \/ m_ctrlIndex (self w) = 1.
Proof. intros (_ & _ & H). exact H. Qed.

Lemma toggle_index_index (w : world S) :
  wf w -> m_ctrlIndex (self (toggle_index w)) = other_index w.
Proof.
  intros Hwf. unfold other_index.
  destruct (wf_index w Hwf) as [Hi | Hi]; cbn; rewrite Hi; reflexivity.
Qed.

(** Storing a count and a word in the active buffer: what the active
    buffer holds afterwards, and that nothing else moves. *)
Lemma store_effect (w : world S) c b :
  wf w ->
  let w' := set_cur_bits b (set_cur_count c w) in
  cur_count w' = c /\ cur_bits w' = b /\
  m_ctrlIndex (self w') = m_ctrlIndex (self w) /\
  aget (m_bits (self w')) (other_index w)
  = aget (m_bits (self w)) (other_index w) /\
  aget (m_bitCounts (self w')) (other_index w)
  = aget (m_bitCounts (self w)) (other_index w) /\
  cached_bits w' = cached_bits w - cur_count w + c /\
  source w' = source w /\ native_calls w' = native_calls w.
Proof.
  intros Hwf w'. subst w'.
  unfold cur_count, cur_bits, other_index, cached_bits,
    set_cur_bits, set_cur_count, with_self.
  cbn [self source native_calls m_bits m_bitCounts m_ctrlIndex].
  destruct (wf_index w Hwf) as [Hi | Hi]; rewrite Hi;
    unfold aget, aset; cbn [Z.eqb Z.sub Z.opp Z.add Z.pos_sub elt0 elt1];
    repeat split; lia.
Qed.

(** The extraction served from the cache, field by field. *)
Lemma _get_bits_cached_effect (w : world S) bit_count :
  wf w -> 0 <= bit_count <= cur_count w ->
  let w' := snd (_get_bits bit_count w) in
  fst (_get_bits bit_count w) = cur_bits w mod 2 ^ bit_count /\
  cur_count w' = cur_count w - bit_count /\
  cur_bits w' = Z.shiftr (cur_bits w) bit_count /\
  m_ctrlIndex (self w') = m_ctrlIndex (self w) /\
  aget (m_bits (self w')) (other_index w)
  = aget (m_bits (self w)) (other_index w) /\
  aget (m_bitCounts (self w')) (other_index w)
  = aget (m_bitCounts (self w)) (other_index w) /\
  cached_bits w' = cached_bits w - bit_count /\
  source w' = source w /\ native_calls w' = native_calls w.
Proof.
  intros Hwf Hbc w'. subst w'.
  rewrite _get_bits_cached by assumption. cbn [fst snd].
  destruct (store_effect w (cur_count w - bit_count)
              (Z.shiftr (cur_bits w) bit_count) Hwf)
    as (H1 & H2 & H3 & H4 & H5 & H6 & H7 & H8).
  repeat split; try assumption. lia.
Qed.

(** The extraction that refills, field by field. *)
Lemma _get_bits_refill_effect (w : world S) bit_count :
  wf w -> cur_count w < bit_count <= 31 ->
  let k := bit_count - cur_count w in
  let fresh := fst (native_random LONG_MAX (source w)) in
  let w' := snd (_get_bits bit_count w) in
  fst (_get_bits bit_count w)
  = Z.lor (Z.shiftl (cur_bits w) k) (fresh mod 2 ^ k) /\
  cur_count w' = BITS_PER_NATIVE_RANDOM - k /\
  cur_bits w' = Z.shiftr fresh k /\
  m_ctrlIndex (self w') = m_ctrlIndex (self w) /\
  aget (m_bits (self w')) (other_index w)
  = aget (m_bits (self w)) (other_index w) /\
  aget (m_bitCounts (self w')) (other_index w)
  = aget (m_bitCounts (self w)) (other_index w) /\
  cached_bits w' = cached_bits w - cur_count w + BITS_PER_NATIVE_RANDOM - k /\
  source w' = snd (native_random LONG_MAX (source w)) /\
  native_calls w' = Datatypes.S (native_calls w).
Proof.
  intros Hwf Hbc k fresh w'. subst w'.
  pose proof (_get_bits_refill w bit_count Hwf Hbc) as Heq.
  cbv zeta in Heq. rewrite Heq. clear Heq. cbn [fst snd]. fold k.
  assert (Hcall : call_native_random LONG_MAX w
                  = (fresh, World (self w)
                              (snd (native_random LONG_MAX (source w)))
                              (Datatypes.S (native_calls w)))).
  { unfold call_native_random, fresh.
    destruct (native_random LONG_MAX (source w)); reflexivity. }
  rewrite Hcall. cbn [fst snd].
  set (w1 := World (self w) (snd (native_random LONG_MAX (source w)))
                   (Datatypes.S (native_calls w))).
  assert (Hwf1 : wf w1) by exact Hwf.
  change (set_cur_count BITS_PER_NATIVE_RANDOM (set_cur_bits fresh w1))
    with (set_cur_bits fresh (set_cur_count BITS_PER_NATIVE_RANDOM w1)).
  set (w2 := set_cur_bits fresh (set_cur_count BITS_PER_NATIVE_RANDOM w1)).
  destruct (store_effect w1 BITS_PER_NATIVE_RANDOM fresh Hwf1)
    as (A1 & A2 & A3 & A4 & A5 & A6 & A7 & A8). fold w2 in A1, A2, A3, A4, A5, A6, A7, A8.
  assert (Hwf2 : wf w2).
  { apply (wf_store w1 w1 BITS_PER_NATIVE_RANDOM fresh Hwf1 eq_refl).
    - unfold BITS_PER_NATIVE_RANDOM. lia.
    - pose proof (native_random_range LONG_MAX (source w) eq_refl) as Hr.
      fold fresh in Hr. unfold LONG_MAX in Hr.
      unfold BITS_PER_NATIVE_RANDOM. lia. }
  destruct (store_effect w2 (BITS_PER_NATIVE_RANDOM - k) (Z.shiftr fresh k) Hwf2)
    as (B1 & B2 & B3 & B4 & B5 & B6 & B7 & B8).
  assert (Ho2 : other_index w2 = other_index w)
    by (unfold other_index; rewrite A3; reflexivity).
  assert (Ho1 : other_index w1 = other_index w) by reflexivity.
  rewrite Ho2 in B4, B5. rewrite Ho1 in A4, A5.
  assert (Hc1 : cur_count w1 = cur_count w) by reflexivity.
  assert (Hb1 : cached_bits w1 = cached_bits w) by reflexivity.
  split; [reflexivity|].
  split; [exact B1|]. split; [exact B2|].
  split; [rewrite B3, A3; reflexivity|].
  split; [rewrite B4, A4; reflexivity|].
  split; [rewrite B5, A5; reflexivity|].
  split; [rewrite B6, A6, A1, Hc1, Hb1; lia|].
  split; [rewrite B7, A7; reflexivity|].
  rewrite B8, A8. reflexivity.
Qed.

(** A non-zero [randomBits] request is one extraction of the granted
    number of bits from the other buffer, plus the offset. *)
Lemma randomBits_step (w : world S) bit_count offset :
  bit_count <> 0 ->
  randomBits bit_count offset w =
    (to_long (fst (_get_bits (granted_bits bit_count) (toggle_index w))
              + offset),
     snd (_get_bits (granted_bits bit_count) (toggle_index w))).
Proof.
  intros Hne. unfold randomBits, granted_bits.
  destruct (Z.eqb_spec bit_count 0) as [|_]; [contradiction|].
  replace (if MAX_BITS_PER_RANDOM_REQUEST <? bit_count
           then MAX_BITS_PER_RANDOM_REQUEST else bit_count)
    with (Z.min bit_count MAX_BITS_PER_RANDOM_REQUEST)
    by (destruct (Z.ltb_spec MAX_BITS_PER_RANDOM_REQUEST bit_count); lia).
  destruct (_get_bits _ (toggle_index w)); reflexivity.
Qed.

Lemma granted_bits_range bit_count :
  0 < bit_count -> 0 < granted_bits bit_count <= 20.
Proof. unfold granted_bits, MAX_BITS_PER_RANDOM_REQUEST. lia. Qed.

(** The balance of one well-typed cache operation: 31 bits enter the
    cache with every native call, and the bits served leave it. *)
Lemma run_op_balance (o : op) (w : world S) :
  wf w -> well_typed o -> bit_request o ->
  31 * Z.of_nat (native_calls (run_op o w)) - cached_bits (run_op o w)
  = 31 * Z.of_nat (native_calls w) - cached_bits w + served_bits o.
Proof.
  intros Hwf Hty Hreq.
  destruct o as [seed | bit_count offset | |]; cbn in Hreq; try contradiction.
  - cbn [run_op served_bits].
    change (native_calls (randomSeed seed w)) with (native_calls w).
    change (cached_bits (randomSeed seed w)) with (cached_bits w). lia.
  - cbn [run_op served_bits]. destruct Hty as [Hbc _]. unfold is_uint8 in Hbc.
    destruct (Z.eq_dec bit_count 0) as [-> | Hne].
    { change (snd (randomBits 0 offset w)) with w.
      change (granted_bits 0) with 0. lia. }
    rewrite randomBits_step by assumption. cbn [snd].
    pose proof (granted_bits_range bit_count ltac:(lia)) as Hg.
    set (g := granted_bits bit_count) in *.
    pose proof (toggle_index_wf w Hwf) as Hwft.
    destruct (wf_cur _ Hwft) as [Hc _].
    assert (Hcb : cached_bits (toggle_index w) = cached_bits w) by reflexivity.
    assert (Hnc : native_calls (toggle_index w) = native_calls w) by reflexivity.
    destruct (Z_le_gt_dec g (cur_count (toggle_index w))) as [Hle | Hgt].
    + destruct (_get_bits_cached_effect (toggle_index w) g Hwft ltac:(lia))
        as (_ & _ & _ & _ & _ & _ & Hcached & _ & Hcalls).
      rewrite Hcached, Hcalls, Hcb, Hnc. lia.
    + destruct (_get_bits_refill_effect (toggle_index w) g Hwft ltac:(lia))
        as (_ & _ & _ & _ & _ & _ & Hcached & _ & Hcalls).
      rewrite Hcached, Hcalls, Hcb, Hnc. unfold BITS_PER_NATIVE_RANDOM. lia.
Qed.

Lemma run_ops_balance (os : list op) (w : world S) :
  wf w -> Forall well_typed os -> Forall bit_request os ->
  wf (run_ops os w) /\
  31 * Z.of_nat (native_calls (run_ops os w)) - cached_bits (run_ops os w)
  = 31 * Z.of_nat (native_calls w) - cached_bits w + bits_served os.
Proof.
  revert w. induction os as [| o os IH]; intros w Hwf Hty Hreq.
  - cbn. split; [assumption | lia].
  - inversion Hty as [| ? ? Hty1 Hty2]; subst.
    inversion Hreq as [| ? ? Hreq1 Hreq2]; subst.
    change (run_ops (o :: os) w) with (run_ops os (run_op o w)).
    destruct (IH (run_op o w) (run_op_wf o w Hty1 Hwf) Hty2 Hreq2)
      as [Hwf' Hbal].
    split; [exact Hwf'|].
    rewrite Hbal, (run_op_balance o w Hwf Hty1 Hreq1).
    cbn [bits_served fold_right]. fold (bits_served os). lia.
Qed.

Lemma toggle_fields (w : world S) :
  wf w ->
  cur_count (toggle_index w) = aget (m_bitCounts (self w)) (other_index w) /\
  cur_bits (toggle_index w) = aget (m_bits (self w)) (other_index w) /\
  other_index (toggle_index w) = m_ctrlIndex (self w).
Proof.
  intros Hwf. pose proof (toggle_index_index w Hwf) as Hi.
  unfold cur_count, cur_bits. unfold other_index at 3. rewrite Hi.
  repeat split. unfold other_index. lia.
Qed.

(** The high and the low part of a refilled extraction do not overlap:
    their bitwise or is their sum. *)
Lemma lor_shiftl_low a b k :
  0 <= k -> Z.lor (Z.shiftl a k) (b mod 2 ^ k) = a * 2 ^ k + b mod 2 ^ k.
Proof.
  intros Hk.
  assert (Hdisj : Z.land (Z.shiftl a k) (b mod 2 ^ k) = 0).
  { apply Z.bits_inj'. intros n Hn.
    rewrite Z.land_spec, Z.bits_0, Z.shiftl_spec by assumption.
    destruct (Z_lt_le_dec n k) as [Hlt | Hge].
    - rewrite (Z.testbit_neg_r a (n - k)) by lia. reflexivity.
    - rewrite Z.mod_pow2_bits_high by lia. apply andb_false_r. }
  rewrite <- Z.shiftl_mul_pow2 by assumption.
  rewrite <- Z.lxor_lor by assumption.
  symmetry. apply Z.add_nocarry_lxor. assumption.
Qed.

(** The fields of a freshly constructed generator. *)
Lemma construct_fields seed (s : S) :
  self (construct seed s)
  = MkRandomX1 (Array2 (fst (native_random LONG_MAX s))
                       (fst (native_random LONG_MAX
                               (snd (native_random LONG_MAX s)))))
               (Array2 BITS_PER_NATIVE_RANDOM BITS_PER_NATIVE_RANDOM) 0 /\
  source (construct seed s)
  = native_randomSeed seed
      (snd (native_random LONG_MAX (snd (native_random LONG_MAX s)))) /\
  native_calls (construct seed s) = 2%nat.
Proof.
  unfold construct, call_native_random. cbn [source self native_calls].
  pose proof (native_random_range LONG_MAX s eq_refl) as H0.
  destruct (native_random LONG_MAX s) as [b0 s0]. cbn [fst snd] in *.
  cbn [with_self source self native_calls].
  pose proof (native_random_range LONG_MAX s0 eq_refl) as H1.
  destruct (native_random LONG_MAX s0) as [b1 s1]. cbn [fst snd] in *.
  unfold LONG_MAX in H0, H1.
  rewrite (to_uint32_small b0), (to_uint32_small b1) by lia.
  repeat split.
Qed.

End Effects.

(** ** Properties of the public interface *)

(** C1. The range limit does not have the documented value 2^20 - 1:
    the constant [MAX_VALUE_PER_RANDOM_REQUEST] is declared [uint8_t],
    so its initialiser is cut down to 255.  A request for the span
    2^21 - 1 is therefore served exactly like [random(0, 256)], and on
    the sample generator it differs from what the documented limit
    would give. *)
Theorem max_value_constant_truncated :
  MAX_VALUE_PER_RANDOM_REQUEST = 255 /\
  documented_max_value = 1048575 /\
  (forall (S : Type) (src : NativeSource S) (w : world S),
      random 0 2097152 w = random 0 256 w) /\
  fst (random 0 2097152 Samples.fresh_generator) = 78 /\
  fst (random_capped documented_max_value 0 2097152 Samples.fresh_generator)
  = 811342.
Proof.
  split; [reflexivity|]. split; [reflexivity|]. split.
  - intros S src w. reflexivity.
  - split; vm_compute; reflexivity.
Qed.

(** C2, as the specification states it, fails: a zero-bit request with
    offset 5 returns 0, not 5. *)
Lemma randomBits_zero_drops_offset :
  fst (randomBits 0 5 Samples.fresh_generator) <> 5.
Proof. vm_compute. discriminate. Qed.

(** C2, amended.  For every offset, [randomBits(0, offset)] returns 0
    (the offset is not added) and leaves the whole generator state,
    control index included, untouched; the native source is not
    called. *)
Theorem randomBits_zero_returns_zero
    {S : Type} {src : NativeSource S} (offset : Z) (w : world S) :
  randomBits 0 offset w = (0, w).
Proof. reflexivity. Qed.

(** C10. [randomSeed] changes nothing but the native source: both
    buffers, both counts and the control index are as before, and the
    native source is reseeded without being drawn from. *)
Theorem randomSeed_frame
    {S : Type} {src : NativeSource S} (seed : Z) (w : world S) :
  m_bits (self (randomSeed seed w)) = m_bits (self w) /\
  m_bitCounts (self (randomSeed seed w)) = m_bitCounts (self w) /\
  m_ctrlIndex (self (randomSeed seed w)) = m_ctrlIndex (self w) /\
  self (randomSeed seed w) = self w /\
  source (randomSeed seed w) = native_randomSeed seed (source w) /\
  native_calls (randomSeed seed w) = native_calls w.
Proof. repeat split; reflexivity. Qed.

(** C7. [random(min_val, max_val)] always returns, in every state and
    for all arguments, after at most three calls to the native source
    (a refill in each of the two draws and the fallback; the peeks
    never refill), hence at most four. *)
Theorem random_native_calls_bounded
    {S : Type} {src : NativeSource S} (w : world S) (min_val max_val : Z) :
  exists v w',
    random min_val max_val w = (v, w') /\
    (native_calls w <= native_calls w' <= native_calls w + 3)%nat /\
    (native_calls w' <= native_calls w + 4)%nat.
Proof.
  pose proof (random_calls w min_val max_val) as H.
  destruct (random min_val max_val w) as [v w']. cbn [snd] in H.
  exists v, w'. split; [reflexivity | lia].
Qed.

(** The bound of three calls is reached: on the drained sample
    generator [random(0, 201)] rejects both draws and both peeks. *)
Example random_exhaustion_path :
  let w := Samples.drained_generator in
  fst (random 0 201 w) = 34 /\
  native_calls (snd (random 0 201 w)) = (native_calls w + 3)%nat.
Proof. vm_compute. split; reflexivity. Qed.

(** C9, as the specification states it, fails where the subtraction
    [max_val - min_val - 1] leaves the range of [long]: for
    [max_val = LONG_MIN <= 0] the span wraps to [LONG_MAX], and
    [random(LONG_MIN)] draws eight bits and returns 78 instead of 0. *)
Lemma random_of_long_min_is_not_zero :
  -2147483648 <= 0 /\ is_long (-2147483648) /\
  fst (random1 (-2147483648) Samples.fresh_generator) = 78 /\
  fst (random1 (-2147483648) Samples.fresh_generator) <> 0 /\
  snd (random1 (-2147483648) Samples.fresh_generator)
  <> Samples.fresh_generator.
Proof.
  split; [lia|]. split; [unfold is_long, LONG_MIN, LONG_MAX; lia|].
  split; [vm_compute; reflexivity|].
  split; vm_compute; discriminate.
Qed.

(** C9, amended.  Degenerate requests return 0 by the early return, with
    the state untouched: [random(max_val)] for
    [LONG_MIN < max_val <= 0], and [random(min_val, max_val)] for
    [max_val - min_val <= 1] when [max_val - min_val - 1] is not below
    [LONG_MIN], that is, whenever the subtraction that computes the
    span does not overflow [long]. *)
Theorem random_degenerate_returns_zero
    {S : Type} {src : NativeSource S}
    (w : world S) (min_val max_val max_val1 : Z) :
  span_defined min_val max_val -> max_val - min_val <= 1 ->
  span_defined 0 max_val1 -> max_val1 <= 0 ->
  random min_val max_val w = (0, w) /\ random1 max_val1 w = (0, w).
Proof.
  intros [_ Hs] Hle [_ Hs1] Hle1. unfold is_long in *. split.
  - apply random_degenerate. rewrite to_long_small by assumption. lia.
  - unfold random1. apply random_degenerate.
    rewrite to_long_small by assumption. lia.
Qed.

Lemma random_degenerate_returns_zero_witness :
  random 5 6 Samples.fresh_generator = (0, Samples.fresh_generator) /\
  random1 (-3) Samples.fresh_generator = (0, Samples.fresh_generator).
Proof.
  apply (random_degenerate_returns_zero Samples.fresh_generator 5 6 (-3));
    unfold span_defined, is_long, LONG_MIN, LONG_MAX; lia.
Defined.

(** C5. [_get_required_bits] is a function of its argument alone and
    computes [ceil (log2 (n + 1))] for every [n] in [0, 2^20]; below 256
    the result is read from the 256-entry table, and above it from the
    table entry of [n] shifted right by 8 or 16 bits, plus 8 or 16. *)
Theorem required_bits_is_ceil_log2 (n : Z) :
  0 <= n <= 2 ^ 20 ->
  _get_required_bits n = Z.log2_up (n + 1) /\
  _get_required_bits n =
    (if n <? 2 ^ 8 then index REQUIRED_BITS n
     else if n <? 2 ^ 16 then 8 + index REQUIRED_BITS (Z.shiftr n 8)
     else 16 + index REQUIRED_BITS (Z.shiftr n 16)) /\
  length REQUIRED_BITS = 256%nat /\
  _get_required_bits 0 = 0 /\ _get_required_bits 1 = 1 /\
  _get_required_bits 255 = 8 /\ _get_required_bits 256 = 9 /\
  _get_required_bits 1048575 = 20.
Proof.
  intros Hn.
  assert (Hw : _get_required_bits n = bit_width n)
    by (apply _get_required_bits_width; unfold LONG_MAX; lia).
  split; [exact Hw|].
  split; [| repeat split; reflexivity].
  rewrite Hw.
  destruct (Z.ltb_spec n (2 ^ 8)) as [H8 | H8].
  - symmetry. apply REQUIRED_BITS_byte. lia.
  - assert (Hs8 : 1 <= Z.shiftr n 8 < 2 ^ 13).
    { rewrite Z.shiftr_div_pow2 by lia. split.
      - apply Z.div_le_lower_bound; lia.
      - apply Z.div_lt_upper_bound; lia. }
    rewrite (bit_width_shift8 n) by lia.
    destruct (Z.ltb_spec n (2 ^ 16)) as [H16 | H16].
    + rewrite REQUIRED_BITS_byte; [reflexivity|].
      rewrite Z.shiftr_div_pow2 by lia. split.
      * apply Z.div_pos; lia.
      * apply Z.div_lt_upper_bound; lia.
    + assert (Hs16 : 1 <= Z.shiftr n 16 < 2 ^ 5).
      { rewrite Z.shiftr_div_pow2 by lia. split.
        - apply Z.div_le_lower_bound; lia.
        - apply Z.div_lt_upper_bound; lia. }
      replace (Z.shiftr n 16) with (Z.shiftr (Z.shiftr n 8) 8) in *
        by (rewrite Z.shiftr_shiftr by lia; reflexivity).
      rewrite (bit_width_shift8 (Z.shiftr n 8)) by lia.
      rewrite REQUIRED_BITS_byte by lia. lia.
Qed.

Lemma required_bits_is_ceil_log2_witness :
  _get_required_bits 1048576 = Z.log2_up (1048576 + 1).
Proof.
  apply (required_bits_is_ceil_log2 1048576). lia.
Defined.

(** C3, as the specification states it, fails: [6 > 5], yet
    [random(5, 6)] returns 0, which is outside [5, 6). *)
Lemma random_unit_range_returns_zero :
  reachable Samples.fresh_generator /\
  fst (random 5 6 Samples.fresh_generator) = 0 /\
  ~ (5 <= fst (random 5 6 Samples.fresh_generator) < 6).
Proof.
  split; [apply reachable_construct|].
  split; [reflexivity|]. vm_compute. intros [H _]. apply H. reflexivity.
Qed.

(** C3, amended.  From every reachable state, [random(min_val, max_val)]
    returns a value [v] with [min_val <= v < max_val] when
    [max_val - min_val >= 2], and 0 when [max_val - min_val <= 1]
    (a range of a single value included), whenever the subtraction that
    computes the span is defined. *)
Theorem random_in_range
    {S : Type} {src : NativeSource S} (w : world S) (min_val max_val : Z) :
  reachable w -> is_long min_val -> is_long max_val ->
  span_defined min_val max_val ->
  (2 <= max_val - min_val ->
   min_val <= fst (random min_val max_val w) < max_val) /\
  (max_val - min_val <= 1 -> fst (random min_val max_val w) = 0).
Proof.
  intros Hreach Hmin Hmax Hspan. split; intros Hle.
  - pose proof (random_offset_bounds w min_val max_val
                  (reachable_wf w Hreach) Hmin Hmax Hspan Hle) as H.
    lia.
  - destruct Hspan as [_ Hs]. unfold is_long in Hs.
    rewrite random_degenerate; [reflexivity|].
    rewrite to_long_small by assumption. lia.
Qed.

Lemma random_in_range_witness :
  10 <= fst (random 10 20 Samples.fresh_generator) < 20 /\
  fst (random 20 10 Samples.fresh_generator) = 0.
Proof.
  split.
  - apply (random_in_range Samples.fresh_generator 10 20);
      [ apply reachable_construct | | | | ];
      unfold span_defined, is_long, LONG_MIN, LONG_MAX; lia.
  - apply (random_in_range Samples.fresh_generator 20 10);
      [ apply reachable_construct | | | | ];
      unfold span_defined, is_long, LONG_MIN, LONG_MAX; lia.
Defined.

(** C8, as stated for every [min_val] and [max_val] with
    [max_val - min_val >= 2], fails where the span overflows [long]:
    for [random(LONG_MIN, 1)] the span [2^31] wraps to [LONG_MIN], the
    early return gives 0, and 0 is [max_val - 1]. *)
Lemma random_returns_top_on_overflow :
  2 <= 1 - -2147483648 /\ is_long (-2147483648) /\ is_long 1 /\
  reachable Samples.fresh_generator /\
  fst (random (-2147483648) 1 Samples.fresh_generator) = 1 - 1.
Proof.
  split; [lia|].
  split; [unfold is_long, LONG_MIN, LONG_MAX; lia|].
  split; [unfold is_long, LONG_MIN, LONG_MAX; lia|].
  split; [apply reachable_construct|]. vm_compute. reflexivity.
Qed.

(** C8, amended.  From every reachable state, for [long] arguments with
    [max_val - min_val >= 2] and [max_val - min_val <= LONG_MAX] (the
    subtraction that computes the span does not overflow),
    [random(min_val, max_val)] returns a value in
    [min_val, max_val - 1): the value [max_val - 1] is never
    returned. *)
Theorem random_never_returns_top
    {S : Type} {src : NativeSource S} (w : world S) (min_val max_val : Z) :
  reachable w -> is_long min_val -> is_long max_val ->
  span_defined min_val max_val -> 2 <= max_val - min_val ->
  min_val <= fst (random min_val max_val w) < max_val - 1 /\
  fst (random min_val max_val w) <> max_val - 1.
Proof.
  intros Hreach Hmin Hmax Hspan Hle.
  pose proof (random_offset_bounds w min_val max_val
                (reachable_wf w Hreach) Hmin Hmax Hspan Hle) as H.
  lia.
Qed.

Lemma random_never_returns_top_witness :
  0 <= fst (random 0 201 Samples.drained_generator) < 201 - 1 /\
  fst (random 0 201 Samples.drained_generator) <> 201 - 1.
Proof.
  apply (random_never_returns_top Samples.drained_generator 0 201).
  - apply reachable_run_ops; [| apply reachable_construct].
    repeat constructor; vm_compute; discriminate.
  - unfold is_long, LONG_MIN, LONG_MAX; lia.
  - unfold is_long, LONG_MIN, LONG_MAX; lia.
  - unfold span_defined, is_long, LONG_MIN, LONG_MAX; lia.
  - lia.
Defined.

(** C4, as stated for every offset, fails where adding the offset
    leaves the range of [long]: [randomBits(3, LONG_MAX)] draws 6 and
    returns [LONG_MAX + 6] wrapped, -2147483643, which is below the
    offset. *)
Lemma randomBits_offset_overflow :
  1 <= 3 <= 20 /\ is_long 2147483647 /\
  reachable Samples.fresh_generator /\
  fst (randomBits 3 2147483647 Samples.fresh_generator) = -2147483643 /\
  ~ (2147483647 <= fst (randomBits 3 2147483647 Samples.fresh_generator)
     < 2147483647 + 2 ^ 3).
Proof.
  split; [lia|].
  split; [unfold is_long, LONG_MIN, LONG_MAX; lia|].
  split; [apply reachable_construct|].
  split; [vm_compute; reflexivity|].
  vm_compute. intros [H _]. apply H. reflexivity.
Qed.

(** C4, amended.  From every reachable state,
    [randomBits(bit_count, offset)] with [1 <= bit_count <= 20] and an
    offset with [offset + 2^bit_count - 1 <= LONG_MAX] (adding the
    offset does not overflow [long]) returns a value in
    [offset, offset + 2^bit_count), and a [bit_count] above 20 gives
    exactly what [randomBits(20, offset)] gives, for every offset. *)
Theorem randomBits_in_range
    {S : Type} {src : NativeSource S} (w : world S) (bit_count offset : Z) :
  reachable w -> is_long offset ->
  (1 <= bit_count <= 20 -> offset + 2 ^ bit_count - 1 <= LONG_MAX ->
   offset <= fst (randomBits bit_count offset w) < offset + 2 ^ bit_count) /\
  (20 < bit_count <= 255 ->
   randomBits bit_count offset w = randomBits 20 offset w).
Proof.
  intros Hreach Hoff. unfold is_long, LONG_MIN, LONG_MAX in *. split.
  - intros Hbc Hsum.
    destruct (randomBits bit_count offset w) as [v w'] eqn:E.
    apply randomBits_sound in E; [| apply reachable_wf; assumption | lia].
    destruct E as (bits & Hbits & -> & _). cbn [fst].
    unfold MAX_BITS_PER_RANDOM_REQUEST in Hbits.
    rewrite Z.min_l in Hbits by lia.
    rewrite to_long_small by (unfold LONG_MIN, LONG_MAX; lia). lia.
  - intros Hbc. unfold randomBits, MAX_BITS_PER_RANDOM_REQUEST.
    destruct (Z.eqb_spec bit_count 0) as [|_]; [lia|].
    destruct (Z.ltb_spec 20 bit_count) as [_|]; [|lia].
    reflexivity.
Qed.

Lemma randomBits_in_range_witness :
  (10 <= fst (randomBits 3 10 Samples.fresh_generator) < 10 + 2 ^ 3) /\
  randomBits 200 10 Samples.fresh_generator
  = randomBits 20 10 Samples.fresh_generator.
Proof.
  split.
  - apply (randomBits_in_range Samples.fresh_generator 3 10);
      [ apply reachable_construct | | | ];
      unfold is_long, LONG_MIN, LONG_MAX; lia.
  - apply (randomBits_in_range Samples.fresh_generator 200 10);
      [ apply reachable_construct | | ];
      unfold is_long, LONG_MIN, LONG_MAX; lia.
Defined.

(** C6. After the constructor and any sequence of public operations,
    each buffer's count lies in [0, 31] and the buffer holds nothing at
    or above its count.  Every extraction made in such a state, on
    either buffer, yields exactly the bits taken from positions below
    the count (the remaining bits as the high part, and the low bits of
    the refilled word when the buffer runs short), and a peek decides on
    the low [bit_count] bits only when the buffer holds that many. *)
Theorem buffer_invariant
    {S : Type} {src : NativeSource S} (w : world S) :
  reachable w ->
  (forall i, i = 0 \/ i = 1 ->
     0 <= aget (m_bitCounts (self w)) i <= BITS_PER_NATIVE_RANDOM /\
     forall p, aget (m_bitCounts (self w)) i <= p ->
               Z.testbit (aget (m_bits (self w)) i) p = false) /\
  (forall w0 bit_count,
     w0 = w \/ w0 = toggle_index w ->
     0 <= bit_count <= MAX_BITS_PER_RANDOM_REQUEST ->
     (forall j, 0 <= j ->
        Z.testbit (fst (_get_bits bit_count w0)) j
        = extracted_bit bit_count w0 j) /\
     (forall num res, 0 < num <= LONG_MAX ->
        fst (fst (_peek_bits bit_count num res w0))
        = (bit_count <=? cur_count w0)
          && (cur_bits w0 mod 2 ^ bit_count <? num))).
Proof.
  intros Hreach. pose proof (reachable_wf w Hreach) as Hwf. split.
  - intros i Hi.
    assert (Hbuf : buffer_ok w i)
      by (destruct Hwf as (H0 & H1 & _); destruct Hi as [-> | ->]; assumption).
    destruct Hbuf as [Hc Hb]. split; [exact Hc|].
    intros p Hp. apply (testbit_above _ _ p Hb Hp).
  - intros w0 bit_count Hw0 Hbc.
    unfold MAX_BITS_PER_RANDOM_REQUEST in Hbc.
    assert (Hwf0 : wf w0)
      by (destruct Hw0 as [-> | ->];
          [assumption | apply toggle_index_wf; assumption]).
    split.
    + intros j Hj. apply _get_bits_testbit; (assumption || lia).
    + intros num res Hnum. apply _peek_bits_decision; (assumption || lia).
Qed.

Lemma buffer_invariant_witness :
  0 <= aget (m_bitCounts (self Samples.drained_generator)) 1
    <= BITS_PER_NATIVE_RANDOM /\
  Z.testbit (aget (m_bits (self Samples.drained_generator)) 1) 7 = false /\
  Z.testbit (fst (_get_bits 8 (toggle_index Samples.drained_generator))) 9
  = extracted_bit 8 (toggle_index Samples.drained_generator) 9.
Proof.
  assert (Hreach : reachable Samples.drained_generator).
  { apply reachable_run_ops; [| apply reachable_construct].
    repeat constructor; vm_compute; discriminate. }
  destruct (buffer_invariant Samples.drained_generator Hreach)
    as [Hbuf Hext].
  destruct (Hbuf 1 (or_intror eq_refl)) as [Hcount Hhigh].
  split; [exact Hcount|]. split.
  - apply Hhigh. vm_compute. discriminate.
  - apply (Hext (toggle_index Samples.drained_generator) 8
             (or_intror eq_refl));
      unfold MAX_BITS_PER_RANDOM_REQUEST; lia.
Defined.

(** ** Further properties of the class *)

(** X1. The mask table: for every bit count up to 31, [_get_mask]
    is [2^n - 1], and and-ing with it keeps exactly the low [n] bits. *)
Theorem mask_selects_low_bits (n x : Z) :
  0 <= n <= 31 ->
  _get_mask n = 2 ^ n - 1 /\ Z.land x (_get_mask n) = x mod 2 ^ n.
Proof.
  intros Hn. rewrite _get_mask_ones by assumption. split.
  - rewrite Z.ones_equiv. lia.
  - apply Z.land_ones. lia.
Qed.

Lemma mask_selects_low_bits_witness :
  _get_mask 31 = 2 ^ 31 - 1 /\
  Z.land 12345678 (_get_mask 31) = 12345678 mod 2 ^ 31.
Proof. apply (mask_selects_low_bits 31 12345678). lia. Defined.

(** X2. For every non-negative [long], [_get_required_bits] returns the
    least width that holds the number: [n] is below [2^r], and a
    positive [n] is not below [2^(r-1)]. *)
Theorem required_bits_minimal (n : Z) :
  0 <= n <= LONG_MAX ->
  0 <= _get_required_bits n <= 31 /\
  n < 2 ^ _get_required_bits n /\
  (0 < n -> 2 ^ (_get_required_bits n - 1) <= n).
Proof.
  intros Hn. rewrite _get_required_bits_width by assumption.
  unfold LONG_MAX in Hn.
  destruct (Z.eq_dec n 0) as [-> | Hne].
  - cbn. repeat split; lia.
  - rewrite bit_width_pos by lia.
    pose proof (Z.log2_spec n ltac:(lia)) as [Hlo Hhi].
    pose proof (Z.log2_nonneg n) as Hnn.
    assert (Z.log2 n < 31) by (apply Z.log2_lt_pow2; lia).
    replace (Z.log2 n + 1 - 1) with (Z.log2 n) by lia.
    replace (Z.log2 n + 1) with (Z.succ (Z.log2 n)) by lia.
    repeat split; lia.
Qed.

Lemma required_bits_minimal_witness :
  0 <= _get_required_bits 2147483647 <= 31 /\
  2147483647 < 2 ^ _get_required_bits 2147483647 /\
  (0 < 2147483647 -> 2 ^ (_get_required_bits 2147483647 - 1) <= 2147483647).
Proof. apply (required_bits_minimal 2147483647). unfold LONG_MAX. lia. Defined.

(** X3. The constructor fills both buffers with the first two native
    words, with full counts and control index 0, and seeds the native
    source only afterwards: the object it builds does not depend on the
    seed. *)
Theorem construct_state
    {S : Type} {src : NativeSource S} (seed seed' : Z) (s : S) :
  let d0 := native_random LONG_MAX s in
  let d1 := native_random LONG_MAX (snd d0) in
  self (construct seed s)
  = MkRandomX1 (Array2 (fst d0) (fst d1))
               (Array2 BITS_PER_NATIVE_RANDOM BITS_PER_NATIVE_RANDOM) 0 /\
  self (construct seed s) = self (construct seed' s) /\
  source (construct seed s) = native_randomSeed seed (snd d1) /\
  native_calls (construct seed s) = 2%nat.
Proof.
  cbv zeta.
  destruct (construct_fields seed s) as (A & B & C).
  destruct (construct_fields seed' s) as (A' & _).
  repeat split; try assumption. rewrite A, A'. reflexivity.
Qed.

(** X4. In every reachable state the control index is 0 or 1, so that
    the two arrays are only ever indexed within bounds, and each buffer
    word is below [2^31]. *)
Theorem reachable_index_in_bounds
    {S : Type} {src : NativeSource S} (w : world S) :
  reachable w ->
  (m_ctrlIndex (self w) = 0 \/ m_ctrlIndex (self w) = 1) /\
  0 <= aget (m_bits (self w)) 0 < 2 ^ 31 /\
  0 <= aget (m_bits (self w)) 1 < 2 ^ 31.
Proof.
  intros Hreach. destruct (reachable_wf w Hreach) as ((C0 & B0) & (C1 & B1) & Hi).
  unfold BITS_PER_NATIVE_RANDOM in *.
  pose proof (pow2_le_mono _ 31 (conj (proj1 C0) (proj2 C0))).
  pose proof (pow2_le_mono _ 31 (conj (proj1 C1) (proj2 C1))).
  repeat split; (assumption || lia).
Qed.

Lemma reachable_index_in_bounds_witness :
  (m_ctrlIndex (self Samples.drained_generator) = 0 \/
   m_ctrlIndex (self Samples.drained_generator) = 1) /\
  0 <= aget (m_bits (self Samples.drained_generator)) 0 < 2 ^ 31 /\
  0 <= aget (m_bits (self Samples.drained_generator)) 1 < 2 ^ 31.
Proof.
  apply (reachable_index_in_bounds Samples.drained_generator).
  apply reachable_run_ops; [| apply reachable_construct].
  repeat constructor; vm_compute; discriminate.
Defined.

(** X5. A non-zero [randomBits] request switches to the other buffer
    and stays there: the control index flips, and the buffer that was
    active before the call keeps its word and its count. *)
Theorem randomBits_alternates_buffers
    {S : Type} {src : NativeSource S}
    (w : world S) (bit_count offset : Z) :
  reachable w -> 0 < bit_count <= 255 ->
  m_ctrlIndex (self (snd (randomBits bit_count offset w))) = other_index w /\
  aget (m_bits (self (snd (randomBits bit_count offset w))))
       (m_ctrlIndex (self w))
  = aget (m_bits (self w)) (m_ctrlIndex (self w)) /\
  aget (m_bitCounts (self (snd (randomBits bit_count offset w))))
       (m_ctrlIndex (self w))
  = aget (m_bitCounts (self w)) (m_ctrlIndex (self w)).
Proof.
  intros Hreach Hbc. pose proof (reachable_wf w Hreach) as Hwf.
  rewrite randomBits_step by lia. cbn [snd].
  pose proof (granted_bits_range bit_count ltac:(lia)) as Hg.
  set (g := granted_bits bit_count) in *.
  pose proof (toggle_index_wf w Hwf) as Hwft.
  destruct (toggle_fields w Hwf) as (_ & _ & Ho).
  pose proof (toggle_index_index w Hwf) as Hi.
  destruct (wf_cur _ Hwft) as [Hc _].
  destruct (Z_le_gt_dec g (cur_count (toggle_index w))) as [Hle | Hgt].
  - destruct (_get_bits_cached_effect (toggle_index w) g Hwft ltac:(lia))
      as (_ & _ & _ & E1 & E2 & E3 & _).
    rewrite Ho in E2, E3. rewrite E1, Hi. auto.
  - destruct (_get_bits_refill_effect (toggle_index w) g Hwft ltac:(lia))
      as (_ & _ & _ & E1 & E2 & E3 & _).
    rewrite Ho in E2, E3. rewrite E1, Hi. auto.
Qed.

Lemma randomBits_alternates_buffers_witness :
  m_ctrlIndex (self (snd (randomBits 3 10 Samples.fresh_generator)))
  = other_index Samples.fresh_generator /\
  aget (m_bits (self (snd (randomBits 3 10 Samples.fresh_generator))))
       (m_ctrlIndex (self Samples.fresh_generator))
  = aget (m_bits (self Samples.fresh_generator))
         (m_ctrlIndex (self Samples.fresh_generator)) /\
  aget (m_bitCounts (self (snd (randomBits 3 10 Samples.fresh_generator))))
       (m_ctrlIndex (self Samples.fresh_generator))
  = aget (m_bitCounts (self Samples.fresh_generator))
         (m_ctrlIndex (self Samples.fresh_generator)).
Proof.
  apply (randomBits_alternates_buffers Samples.fresh_generator 3 10);
    [apply reachable_construct | lia].
Defined.



(** X7. When the other buffer holds fewer bits than granted,
    [randomBits] calls the native source exactly once: the bits left in
    the buffer become the high part of the result and the low bits of
    the fresh word the low part; the buffer then holds the rest of the
    fresh word, [31 - k] bits for a shortfall of [k]. *)
Theorem randomBits_refills_once
    {S : Type} {src : NativeSource S}
    (w : world S) (bit_count offset : Z) :
  reachable w -> 0 < bit_count <= 255 ->
  aget (m_bitCounts (self w)) (other_index w) < granted_bits bit_count ->
  let k := granted_bits bit_count
           - aget (m_bitCounts (self w)) (other_index w) in
  let fresh := fst (native_random LONG_MAX (source w)) in
  let w' := snd (randomBits bit_count offset w) in
  fst (randomBits bit_count offset w)
  = to_long (aget (m_bits (self w)) (other_index w) * 2 ^ k
             + fresh mod 2 ^ k + offset) /\
  aget (m_bits (self w')) (other_index w) = fresh / 2 ^ k /\
  aget (m_bitCounts (self w')) (other_index w) = 31 - k /\
  source w' = snd (native_random LONG_MAX (source w)) /\
  native_calls w' = Datatypes.S (native_calls w).
Proof.
  intros Hreach Hbc Hlt. pose proof (reachable_wf w Hreach) as Hwf.
  cbv zeta.
  rewrite randomBits_step by lia. cbn [fst snd].
  pose proof (granted_bits_range bit_count ltac:(lia)) as Hg.
  set (g := granted_bits bit_count) in *.
  pose proof (toggle_index_wf w Hwf) as Hwft.
  destruct (toggle_fields w Hwf) as (Hc & Hb & _).
  pose proof (toggle_index_index w Hwf) as Hi.
  destruct (wf_cur _ Hwft) as [Hcr _].
  rewrite <- Hc in *. rewrite <- Hb.
  destruct (_get_bits_refill_effect (toggle_index w) g Hwft ltac:(lia))
    as (Ev & Ec & Eb & Ei & _ & _ & _ & Es & En).
  set (w' := snd (_get_bits g (toggle_index w))) in *.
  assert (Ec' : aget (m_bitCounts (self w')) (other_index w)
                = BITS_PER_NATIVE_RANDOM - (g - cur_count (toggle_index w)))
    by (rewrite <- Ec; unfold cur_count at 1; rewrite Ei, Hi; reflexivity).
  assert (Eb' : aget (m_bits (self w')) (other_index w)
                = Z.shiftr (fst (native_random LONG_MAX
                                   (source (toggle_index w))))
                           (g - cur_count (toggle_index w)))
    by (rewrite <- Eb; unfold cur_bits at 1; rewrite Ei, Hi; reflexivity).
  change (source (toggle_index w)) with (source w) in *.
  change (native_calls (toggle_index w)) with (native_calls w) in *.
  rewrite Ev, Eb', Ec', Es, En.
  rewrite lor_shiftl_low by lia.
  rewrite Z.shiftr_div_pow2 by lia.
  unfold BITS_PER_NATIVE_RANDOM. repeat split.
Qed.

Lemma randomBits_refills_once_witness :
  native_calls (snd (randomBits 8 0 Samples.drained_generator))
  = Datatypes.S (native_calls Samples.drained_generator) /\
  aget (m_bitCounts (self (snd (randomBits 8 0 Samples.drained_generator))))
       (other_index Samples.drained_generator)
  = 31 - (granted_bits 8
          - aget (m_bitCounts (self Samples.drained_generator))
                 (other_index Samples.drained_generator)).
Proof.
  destruct (randomBits_refills_once Samples.drained_generator 8 0)
    as (_ & _ & Hc & _ & Hn).
  - apply reachable_run_ops; [| apply reachable_construct].
    repeat constructor; vm_compute; discriminate.
  - lia.
  - vm_compute. reflexivity.
  - split; [exact Hn | exact Hc].
Defined.

(** X8. Bit conservation.  After the constructor and any sequence of
    [randomBits] and [randomSeed] calls, every native word is accounted
    for: 31 bits for each call made to the native source equal the bits
    served plus the bits still cached.  No bit is served twice and none
    is dropped. *)
Theorem bit_conservation
    {S : Type} {src : NativeSource S} (seed : Z) (s : S) (os : list op) :
  Forall well_typed os -> Forall bit_request os ->
  31 * Z.of_nat (native_calls (run_ops os (construct seed s)))
  = bits_served os + cached_bits (run_ops os (construct seed s)).
Proof.
  intros Hty Hreq.
  destruct (run_ops_balance os (construct seed s)
              (construct_wf seed s) Hty Hreq) as [_ Hbal].
  destruct (construct_fields seed s) as (Hself & _ & Hcalls).
  assert (Hc : cached_bits (construct seed s) = 62)
    by (unfold cached_bits; rewrite Hself; reflexivity).
  rewrite Hc, Hcalls in Hbal. lia.
Qed.

Lemma bit_conservation_witness :
  31 * Z.of_nat (native_calls Samples.drained_generator)
  = bits_served [Op_randomBits 20 0; Op_randomBits 20 0;
                 Op_randomBits 4 0; Op_randomBits 4 0]
    + cached_bits Samples.drained_generator.
Proof.
  apply (bit_conservation (src := Scripted.source) 0
           [2147483646; 2147483646; 510; 510; 1234]).
  - repeat constructor; vm_compute; discriminate.
  - repeat constructor.
Defined.

(** X9. Reseeding does not reach into the cache: when the next
    [randomBits] request can be served from the cache, reseeding before
    the request or after it gives the same value and the same state. *)
Theorem randomSeed_commutes_with_cached_randomBits
    {S : Type} {src : NativeSource S}
    (w : world S) (seed bit_count offset : Z) :
  reachable w -> 0 < bit_count <= 255 ->
  granted_bits bit_count <= aget (m_bitCounts (self w)) (other_index w) ->
  randomBits bit_count offset (randomSeed seed w)
  = (fst (randomBits bit_count offset w),
     randomSeed seed (snd (randomBits bit_count offset w))).
Proof.
  intros Hreach Hbc Hle. pose proof (reachable_wf w Hreach) as Hwf.
  destruct (toggle_fields w Hwf) as (Hc & _ & _). rewrite <- Hc in Hle.
  rewrite !randomBits_step by lia. cbn [fst snd].
  set (g := granted_bits bit_count) in *.
  assert (Hget : _get_bits g (toggle_index (randomSeed seed w))
                 = (fst (_get_bits g (toggle_index w)),
                    randomSeed seed (snd (_get_bits g (toggle_index w))))).
  { unfold _get_bits.
    change (cur_count (toggle_index (randomSeed seed w)))
      with (cur_count (toggle_index w)).
    destruct (Z.ltb_spec (cur_count (toggle_index w)) g) as [|_]; [lia|].
    reflexivity. }
  rewrite Hget. reflexivity.
Qed.

Lemma randomSeed_commutes_with_cached_randomBits_witness :
  randomBits 3 10 (randomSeed 42 Samples.fresh_generator)
  = (fst (randomBits 3 10 Samples.fresh_generator),
     randomSeed 42 (snd (randomBits 3 10 Samples.fresh_generator))).
Proof.
  apply (randomSeed_commutes_with_cached_randomBits
           Samples.fresh_generator 42 3 10).
  - apply reachable_construct.
  - lia.
  - vm_compute. discriminate.
Defined.

(** X10. For a non-zero request the offset is only added to the bits
    drawn: [randomBits(n, offset)] is [randomBits(n) + offset] and
    leaves the same state. *)
Theorem randomBits_offset_additive
    {S : Type} {src : NativeSource S}
    (w : world S) (bit_count offset : Z) :
  reachable w -> 0 < bit_count <= 255 ->
  randomBits bit_count offset w
  = (to_long (fst (randomBits bit_count 0 w) + offset),
     snd (randomBits bit_count 0 w)).
Proof.
  intros Hreach Hbc. pose proof (reachable_wf w Hreach) as Hwf.
  rewrite !randomBits_step by lia. cbn [fst snd].
  pose proof (granted_bits_range bit_count ltac:(lia)) as Hg.
  set (g := granted_bits bit_count) in *.
  destruct (_get_bits g (toggle_index w)) as [bits w1] eqn:E. cbn [fst snd].
  apply _get_bits_sound in E; [| apply toggle_index_wf; assumption | lia].
  destruct E as (Hbits & _).
  pose proof (pow2_le_mono g 20 ltac:(lia)).
  rewrite Z.add_0_r, (to_long_small bits)
    by (unfold LONG_MIN, LONG_MAX; lia).
  reflexivity.
Qed.

Lemma randomBits_offset_additive_witness :
  randomBits 200 (-7) Samples.fresh_generator
  = (to_long (fst (randomBits 200 0 Samples.fresh_generator) + -7),
     snd (randomBits 200 0 Samples.fresh_generator)).
Proof.
  apply (randomBits_offset_additive Samples.fresh_generator 200 (-7));
    [apply reachable_construct | lia].
Defined.

(** X11. A peek commits only on success.  It never calls the native
    source; when it reports success it has consumed [bit_count] bits of
    the active buffer and hands out their value, which is below [num];
    when it reports failure the state and [res] are exactly as
    before. *)
Theorem _peek_bits_commits_only_on_success
    {S : Type} {src : NativeSource S}
    (w : world S) (bit_count num res : Z) :
  wf w -> 0 <= bit_count <= 31 -> 0 < num <= LONG_MAX ->
  native_calls (snd (_peek_bits bit_count num res w)) = native_calls w /\
  (fst (fst (_peek_bits bit_count num res w)) = true ->
   snd (fst (_peek_bits bit_count num res w)) = cur_bits w mod 2 ^ bit_count /\
   0 <= snd (fst (_peek_bits bit_count num res w)) < num /\
   cur_count (snd (_peek_bits bit_count num res w))
   = cur_count w - bit_count) /\
  (fst (fst (_peek_bits bit_count num res w)) = false ->
   snd (fst (_peek_bits bit_count num res w)) = res /\
   snd (_peek_bits bit_count num res w) = w).
Proof.
  intros Hwf Hbc Hnum. split; [apply _peek_bits_calls|].
  unfold _peek_bits. unfold LONG_MAX in Hnum.
  rewrite land_mask by assumption.
  rewrite (to_uint32_small num) by lia.
  destruct (Z.leb_spec bit_count (cur_count w)) as [Hle | Hgt].
  - destruct (Z.ltb_spec (cur_bits w mod 2 ^ bit_count) num) as [Hlt | Hge].
    + destruct (_get_bits_cached_effect w bit_count Hwf ltac:(lia))
        as (Ev & Ec & _).
      destruct (_get_bits bit_count w) as [v w1]. cbn [fst snd] in *.
      split; [| discriminate].
      intros _. subst v.
      pose proof (Z.mod_pos_bound (cur_bits w) (2 ^ bit_count)
                    (pow2_pos bit_count ltac:(lia))).
      repeat split; (assumption || lia).
    + cbn [fst snd]. split; [discriminate | auto].
  - cbn [fst snd]. split; [discriminate | auto].
Qed.

Lemma _peek_bits_commits_only_on_success_witness :
  native_calls (snd (_peek_bits 8 200 255 Samples.fresh_generator))
  = native_calls Samples.fresh_generator /\
  (fst (fst (_peek_bits 8 200 255 Samples.fresh_generator)) = false ->
   snd (fst (_peek_bits 8 200 255 Samples.fresh_generator)) = 255 /\
   snd (_peek_bits 8 200 255 Samples.fresh_generator)
   = Samples.fresh_generator).
Proof.
  destruct (_peek_bits_commits_only_on_success
              Samples.fresh_generator 8 200 255) as (Hn & _ & Hf).
  - apply reachable_wf, reachable_construct.
  - lia.
  - unfold LONG_MAX. lia.
  - split; [exact Hn | exact Hf].
Defined.

(** X12. The common path of [random].  When the other buffer holds
    enough bits and its low bits are below the sampled span, [random]
    is one cached [randomBits] draw: it returns [min_val] plus those
    bits, leaves the state that draw leaves, and does not call the
    native source. *)
Theorem random_fast_path
    {S : Type} {src : NativeSource S} (w : world S) (min_val max_val : Z) :
  reachable w -> is_long min_val -> is_long max_val ->
  span_defined min_val max_val -> 2 <= max_val - min_val ->
  _get_required_bits (sampled_span min_val max_val)
  <= aget (m_bitCounts (self w)) (other_index w) ->
  aget (m_bits (self w)) (other_index w)
    mod 2 ^ _get_required_bits (sampled_span min_val max_val)
  < sampled_span min_val max_val ->
  random min_val max_val w
  = (min_val
     + aget (m_bits (self w)) (other_index w)
         mod 2 ^ _get_required_bits (sampled_span min_val max_val),
     snd (randomBits (_get_required_bits (sampled_span min_val max_val)) 0 w))
  /\ native_calls (snd (random min_val max_val w)) = native_calls w.
Proof.
  intros Hreach Hmin Hmax [_ Hspan] Hle Hcnt Hacc.
  pose proof (reachable_wf w Hreach) as Hwf.
  unfold is_long, LONG_MIN, LONG_MAX in *.
  unfold sampled_span in *.
  assert (Hd0 : to_long (max_val - min_val - 1) = max_val - min_val - 1)
    by (apply to_long_small; unfold LONG_MIN, LONG_MAX; lia).
  unfold random, random_capped. rewrite Hd0 in *.
  destruct (Z.leb_spec (max_val - min_val - 1) 0) as [|_]; [lia|].
  change MAX_VALUE_PER_RANDOM_REQUEST with 255 in *.
  replace (if 255 <? max_val - min_val - 1 then 255
           else max_val - min_val - 1)
    with (Z.min (max_val - min_val - 1) 255)
    by (destruct (Z.ltb_spec 255 (max_val - min_val - 1)); lia).
  set (d := Z.min (max_val - min_val - 1) 255) in *.
  assert (Hdr : 0 < d <= 255) by lia.
  assert (Hreq : 0 < _get_required_bits d <= 8).
  { rewrite _get_required_bits_width by (unfold LONG_MAX; lia).
    pose proof (bit_width_below d 8 ltac:(lia) ltac:(lia)).
    rewrite bit_width_pos in * by lia.
    pose proof (Z.log2_nonneg d). lia. }
  set (req := _get_required_bits d) in *.
  rewrite randomBits_step by lia.
  assert (Hg : granted_bits req = req)
    by (unfold granted_bits, MAX_BITS_PER_RANDOM_REQUEST; lia).
  rewrite Hg.
  pose proof (toggle_index_wf w Hwf) as Hwft.
  destruct (toggle_fields w Hwf) as (Hc & Hb & _).
  rewrite <- Hc in Hcnt. rewrite <- Hb in *.
  destruct (_get_bits_cached_effect (toggle_index w) req Hwft ltac:(lia))
    as (Ev & _ & _ & _ & _ & _ & _ & _ & En).
  rewrite Ev.
  pose proof (Z.mod_pos_bound (cur_bits (toggle_index w)) (2 ^ req)
                (pow2_pos req ltac:(lia))) as Hm.
  rewrite Z.add_0_r, to_long_small by (unfold LONG_MIN, LONG_MAX; lia).
  destruct (Z.leb_spec d (cur_bits (toggle_index w) mod 2 ^ req)) as [|_];
    [lia|].
  rewrite to_long_small by (unfold LONG_MIN, LONG_MAX; lia).
  cbn [snd]. split; [f_equal; lia | exact En].
Qed.

Lemma random_fast_path_witness :
  random 100 200 Samples.fresh_generator
  = (100
     + aget (m_bits (self Samples.fresh_generator))
            (other_index Samples.fresh_generator)
         mod 2 ^ _get_required_bits (sampled_span 100 200),
     snd (randomBits (_get_required_bits (sampled_span 100 200)) 0
            Samples.fresh_generator))
  /\ native_calls (snd (random 100 200 Samples.fresh_generator))
     = native_calls Samples.fresh_generator.
Proof.
  apply (random_fast_path Samples.fresh_generator 100 200).
  - apply reachable_construct.
  - unfold is_long, LONG_MIN, LONG_MAX; lia.
  - unfold is_long, LONG_MIN, LONG_MAX; lia.
  - unfold span_defined, is_long, LONG_MIN, LONG_MAX; lia.
  - lia.
  - vm_compute. discriminate.
  - vm_compute. reflexivity.
Defined.

(** X13. A range wider than 256 values whose span
    [max_val - min_val - 1] is within [long] is sampled exactly like
    the range of 256 values that starts at [min_val]: in any state,
    [random(min_val, max_val)] and [random(min_val, min_val + 256)]
    return the same value and leave the same state.  (A span that
    overflows [long] wraps and is not covered.) *)
Theorem random_wide_ranges_collapse
    {S : Type} {src : NativeSource S} (w : world S) (min_val max_val : Z) :
  is_long (max_val - min_val - 1) -> 255 < max_val - min_val - 1 ->
  random min_val max_val w = random min_val (min_val + 256) w.
Proof.
  intros Hspan Hwide. unfold random, random_capped.
  rewrite (to_long_small (max_val - min_val - 1)) by exact Hspan.
  replace (min_val + 256 - min_val - 1) with 255 by lia.
  change (to_long 255) with 255.
  change MAX_VALUE_PER_RANDOM_REQUEST with 255.
  destruct (Z.leb_spec (max_val - min_val - 1) 0) as [|_]; [lia|].
  destruct (Z.ltb_spec 255 (max_val - min_val - 1)) as [_|]; [|lia].
  reflexivity.
Qed.

Lemma random_wide_ranges_collapse_witness :
  random (-5) 1000000 Samples.drained_generator
  = random (-5) (-5 + 256) Samples.drained_generator.
Proof.
  apply (random_wide_ranges_collapse Samples.drained_generator (-5) 1000000);
    unfold is_long, LONG_MIN, LONG_MAX; lia.
Defined.

(** X14. From every reachable state, for [long] arguments with
    [max_val - min_val >= 2] and a span [max_val - min_val - 1] that
    does not overflow [long], [random] returns a value in
    [min_val, min_val + 255), also when the range is wider than that. *)
Theorem random_within_255_of_min
    {S : Type} {src : NativeSource S} (w : world S) (min_val max_val : Z) :
  reachable w -> is_long min_val -> is_long max_val ->
  span_defined min_val max_val -> 2 <= max_val - min_val ->
  min_val <= fst (random min_val max_val w) < min_val + 255.
Proof.
  intros Hreach Hmin Hmax Hspan Hle.
  pose proof (random_offset_bounds w min_val max_val
                (reachable_wf w Hreach) Hmin Hmax Hspan Hle) as H.
  change MAX_VALUE_PER_RANDOM_REQUEST with 255 in H. lia.
Qed.

Lemma random_within_255_of_min_witness :
  0 <= fst (random 0 1048576 Samples.fresh_generator) < 0 + 255.
Proof.
  apply (random_within_255_of_min Samples.fresh_generator 0 1048576).
  - apply reachable_construct.
  - unfold is_long, LONG_MIN, LONG_MAX; lia.
  - unfold is_long, LONG_MIN, LONG_MAX; lia.
  - unfold span_defined, is_long, LONG_MIN, LONG_MAX; lia.
  - lia.
Defined.

(** X15. The cost of a program.  Running any sequence of public
    operations never lowers the count of native calls and adds at most
    three calls for each operation. *)
Theorem run_ops_native_calls
    {S : Type} {src : NativeSource S} (os : list op) (w : world S) :
  (native_calls w <= native_calls (run_ops os w)
   <= native_calls w + 3 * length os)%nat.
Proof.
  revert w. induction os as [| o os IH]; intros w.
  - cbn. lia.
  - change (run_ops (o :: os) w) with (run_ops os (run_op o w)).
    specialize (IH (run_op o w)).
    assert (Hstep : (native_calls w <= native_calls (run_op o w)
                     <= native_calls w + 3)%nat).
    { destruct o as [seed | bit_count offset | min_val max_val | max_val];
        cbn [run_op].
      - change (native_calls (randomSeed seed w)) with (native_calls w). lia.
      - pose proof (randomBits_calls w bit_count offset). lia.
      - apply random_calls.
      - apply random_calls. }
    cbn [length]. lia.
Qed.

(** X16. A range of two values yields only the lower one: from every
    reachable state, [random(min_val, min_val + 2)] returns
    [min_val]. *)
Theorem random_two_values_returns_min
    {S : Type} {src : NativeSource S} (w : world S) (min_val : Z) :
  reachable w -> is_long min_val -> is_long (min_val + 2) ->
  fst (random min_val (min_val + 2) w) = min_val.
Proof.
  intros Hreach Hmin Hmax.
  assert (Hspan : span_defined min_val (min_val + 2))
    by (unfold span_defined, is_long, LONG_MIN, LONG_MAX; lia).
  pose proof (random_offset_bounds w min_val (min_val + 2)
                (reachable_wf w Hreach) Hmin Hmax Hspan ltac:(lia)) as H.
  change MAX_VALUE_PER_RANDOM_REQUEST with 255 in H. lia.
Qed.

Lemma random_two_values_returns_min_witness :
  fst (random 0 (0 + 2) Samples.drained_generator) = 0.
Proof.
  apply (random_two_values_returns_min Samples.drained_generator 0).
  - apply reachable_run_ops; [| apply reachable_construct].
    repeat constructor; vm_compute; discriminate.
  - unfold is_long, LONG_MIN, LONG_MAX; lia.
  - unfold is_long, LONG_MIN, LONG_MAX; lia.
Defined.


